(** * Phonetic name matching: a shallow embedding of [phonetic_match]

    The Python package [phonetic_match] scores the similarity of two personal
    names.  This development embeds its pipeline
    ([config.py], [normalizer.py], [models.py], [processor.py], [encoder.py],
    [engine.py], [matcher.py]) as Rocq functions and proves the properties its
    specification states.

    Modelling conventions.
    - Python [str] is [string]; a character is a code point below 256.
      [lower], white space and the class [[a-zA-Z]] are Python's on that
      range.  A Python string can hold other code points, and two of them
      lower-case to text with an ASCII letter (the Kelvin sign U+212A to
      [k], the dotted capital I U+0130 to [i] and a combining dot): a raw
      name without a character of [[a-zA-Z]] can therefore have a token.
      The package looks for letters after lower-casing, and so do the
      statements below: what they say of a name they say of its lower-cased
      text and of the tokens found there, and of the characters of the raw
      name only when the name is ASCII.
    - [upper] and [capitalize] are Python's on strings of ASCII letters,
      which is all the package applies them to (a token is a match of
      [[a-zA-Z]+]).  On other characters Python's functions can change the
      length of the string ([upper] of the sharp s is [SS]) or leave the
      range; statements on the value of [upper] or [capitalize] are made
      for tokens of ASCII letters.
    - Python [float] is the kernel's binary64 [float] ([PrimFloat]); Python's
      [<], [<=], [==] on floats are [<?], [<=?], [=?].
    - The two third-party functions, [metaphone.doublemetaphone] and
      [rapidfuzz.distance.JaroWinkler.similarity], are not part of the
      repository: every definition that calls them takes them as arguments
      ([doublemetaphone], [jaro_winkler]).
    - [id(obj)] of a [LabeledSegment] is the field [obj_id], drawn from an
      allocation counter when the wrapper object is created.
    - [print] calls of the [debug] path have no effect on the returned value
      and are left out. *)

From Stdlib Require Import ZArith Floats Ascii String List Lia Sorted.
From Stdlib Require Import DecimalString.
From stdpp Require Import gmap strings list sets.

Set Warnings "-inexact-float".
Local Open Scope string_scope.
Local Open Scope list_scope.

(** ** Python built-ins used by the package *)

Module Py.

(** *** Characters and [str] methods *)

Definition code (c : ascii) : N := N_of_ascii c.

Definition is_ascii_upper (c : ascii) : bool :=
  ((65 <=? code c) && (code c <=? 90))%N.

Definition is_ascii_lower (c : ascii) : bool :=
  ((97 <=? code c) && (code c <=? 122))%N.

(** The regex class [[a-zA-Z]]. *)
Definition is_alpha (c : ascii) : bool :=
  is_ascii_lower c || is_ascii_upper c.

(** The regex class [\s] (and the characters [str.strip] removes):
    TAB, LF, VT, FF, CR, the separators FS, GS, RS, US, the space, NEL and
    the no-break space. *)
Definition is_space (c : ascii) : bool :=
  (((9 <=? code c) && (code c <=? 13))
   || ((28 <=? code c) && (code c <=? 32))
   || (code c =? 133) || (code c =? 160))%N.

(** Upper-case letters of Latin-1 other than the ASCII ones: 192..222
    without the multiplication sign 215. *)
Definition is_latin1_upper (c : ascii) : bool :=
  ((192 <=? code c) && (code c <=? 222) && negb (code c =? 215))%N.

Definition char_lower (c : ascii) : ascii :=
  if is_ascii_upper c || is_latin1_upper c
  then ascii_of_N (code c + 32) else c.

(** Upper case of an ASCII letter.  The package applies [upper] and
    [capitalize] to tokens, which are made of ASCII letters; any other
    character is left as it is here. *)
Definition char_upper (c : ascii) : ascii :=
  if is_ascii_lower c then ascii_of_N (code c - 32) else c.

Fixpoint str_map (f : ascii -> ascii) (s : string) : string :=
  match s with
  | EmptyString => EmptyString
  | String c s' => String (f c) (str_map f s')
  end.

Fixpoint str_filter (f : ascii -> bool) (s : string) : string :=
  match s with
  | EmptyString => EmptyString
  | String c s' => if f c then String c (str_filter f s') else str_filter f s'
  end.

(** [s.lower()], and [s.upper()] for [s] made of ASCII letters *)
Definition lower (s : string) : string := str_map char_lower s.
Definition upper (s : string) : string := str_map char_upper s.

(** [s.capitalize()] for [s] made of ASCII letters: first character
    upper-cased, the rest lower-cased. *)
Definition capitalize (s : string) : string :=
  match s with
  | EmptyString => EmptyString
  | String c s' => String (char_upper c) (lower s')
  end.

(** [re.sub(r"\s+", " ", s)]: every maximal run of white space becomes one
    space.  [in_run] tells that the previous character was white space. *)
Fixpoint sub_ws_from (in_run : bool) (s : string) : string :=
  match s with
  | EmptyString => EmptyString
  | String c s' =>
      if is_space c
      then (if in_run then sub_ws_from true s'
            else String " " (sub_ws_from true s'))
      else String c (sub_ws_from false s')
  end.

Definition sub_ws (s : string) : string := sub_ws_from false s.

Fixpoint lstrip (s : string) : string :=
  match s with
  | EmptyString => EmptyString
  | String c s' => if is_space c then lstrip s' else s
  end.

Fixpoint rstrip (s : string) : string :=
  match s with
  | EmptyString => EmptyString
  | String c s' =>
      match rstrip s' with
      | EmptyString => if is_space c then EmptyString else String c EmptyString
      | r => String c r
      end
  end.

(** [s.strip()] *)
Definition strip (s : string) : string := rstrip (lstrip s).

(** [s.replace(" ", "")] *)
Definition remove_spaces (s : string) : string :=
  str_filter (fun c => negb (Ascii.eqb c " ")) s.

(** [re.findall(r"[a-zA-Z]+", s)]: the maximal runs of letters, left to
    right.  [cur] is the run being read. *)
Fixpoint findall_alpha_from (cur : string) (s : string) : list string :=
  match s with
  | EmptyString => if String.eqb cur "" then [] else [cur]
  | String c s' =>
      if is_alpha c then findall_alpha_from (cur +:+ String c "") s'
      else if String.eqb cur "" then findall_alpha_from "" s'
      else cur :: findall_alpha_from "" s'
  end.

Definition findall_alpha (s : string) : list string :=
  findall_alpha_from "" s.

(** ["".join(parts)] *)
Definition join (parts : list string) : string := String.concat "" parts.

(** Truth value of a [str]: the empty string is false. *)
Definition truthy (s : string) : bool := negb (String.eqb s "").

(** Truth value of an [Optional[str]]: [None] and [""] are false. *)
Definition truthy_opt (o : option string) : bool :=
  match o with
  | Some s => truthy s
  | None => false
  end.

(** *** Floats *)

(** [float(n)] for a non-negative integer, correctly rounded. *)
Definition float_of_nat (n : nat) : float :=
  SF2Prim (binary_normalize prec emax (Z.of_nat n) 0 false).

(** [sum(xs)] on a list of floats: the accumulator starts at [0] and the
    items are added left to right, each addition rounded (CPython up to 3.11;
    later versions compensate the rounding errors, which gives the same
    float whenever these additions are exact). *)
Definition sum (xs : list float) : float :=
  fold_left PrimFloat.add xs 0%float.

(** [|x| * 10^d] for [|x| = m * 2^e], rounded to the nearest integer, ties to
    even: the decimal digits Python keeps when it rounds or formats a float
    to [d] places. *)
Definition scaled_half_even (m : positive) (e : Z) (d : nat) : Z :=
  let num := (Z.pos m * 10 ^ Z.of_nat d)%Z in
  if (0 <=? e)%Z then (num * 2 ^ e)%Z
  else
    let den := (2 ^ (- e))%Z in
    let q := (num / den)%Z in
    match (2 * (num mod den) ?= den)%Z with
    | Lt => q
    | Gt => (q + 1)%Z
    | Eq => if Z.even q then q else (q + 1)%Z
    end.

(** [round(x, d)] for [d >= 0]: the float nearest to the decimal obtained by
    rounding the exact value of [x] to [d] places (ties to even); zeros,
    infinities and NaN round to themselves. *)
Definition round (x : float) (d : nat) : float :=
  match Prim2SF x with
  | S754_finite s m e =>
      match scaled_half_even m e d with
      | Z.pos k =>
          SF2Prim (SFdiv prec emax (S754_finite s k 0)
                     (S754_finite false (Z.to_pos (10 ^ Z.of_nat d)) 0))
      | _ => SF2Prim (S754_zero s)
      end
  | _ => x
  end.

Fixpoint zeros (n : nat) : string :=
  match n with
  | O => ""
  | S n' => "0" +:+ zeros n'
  end.

Definition zero_pad (width : nat) (digits : string) : string :=
  zeros (width - String.length digits) +:+ digits.

Definition decimal (n : Z) : string :=
  NilZero.string_of_uint (N.to_uint (Z.to_N n)).

(** [f"{x:.4f}"] *)
Definition format_4f (x : float) : string :=
  match Prim2SF x with
  | S754_nan => "nan"
  | S754_infinity s => if s then "-inf" else "inf"
  | S754_zero s => if s then "-0.0000" else "0.0000"
  | S754_finite s m e =>
      let k := scaled_half_even m e 4 in
      (if s then "-" else "")
        +:+ decimal (k / 10000) +:+ "." +:+ zero_pad 4 (decimal (k mod 10000))
  end.

(** [xs.sort(key=key, reverse=True)]: a stable sort by decreasing key.  Only
    [<] on keys is used; an item goes in front of the first item whose key
    is not greater than its own, so items with equal keys keep their
    order.  This is the list Python produces whenever the keys are numbers;
    the keys the package sorts are positive scores. *)
Section Sort.
Context {A : Type} (key : A -> float).

Fixpoint insert_desc (x : A) (l : list A) : list A :=
  match l with
  | [] => [x]
  | y :: l' =>
      if (key x <? key y)%float then y :: insert_desc x l' else x :: l
  end.

Definition sort_desc (l : list A) : list A :=
  foldr insert_desc [] l.
End Sort.

End Py.

(** ** [config.py] *)

Module NameConfig.

(** Spelling variants that are replaced by the canonical form. *)
Definition MUHAMMAD_VARIANTS : gset string :=
  {[ "md"; "mohd"; "muhd"; "moham"; "muhammad"; "mohammad"; "muhammed";
     "mohammed"; "mohamad"; "mohamed" ]}.

Definition STANDARD_MUHAMMAD : string := "Muhammad".

Definition PHONETIC_WEIGHT : float := 0.85.
Definition WORD_SIM_WEIGHT : float := 0.15.
Definition SCORE_MULTIPLIER : float := 100.

End NameConfig.

(** ** [normalizer.py] *)

Module ScoreNormalizer.

Definition get_label (score : float) : string :=
  if (score <=? 30)%float then "Names Do Not Match"
  else if (30 <? score)%float && (score <=? 60)%float then "Weak Match"
  else if (60 <? score)%float && (score <=? 75)%float then "Slightly Similar"
  else if (75 <? score)%float && (score <=? 88)%float then "Somewhat Similar"
  else if (88 <? score)%float && (score <=? 94)%float then "Highly Similar"
  else if (94 <? score)%float && (score <? 100)%float then "Almost Identical"
  else if (score =? 100)%float then "Identical Name"
  else "Unknown".

End ScoreNormalizer.

(** ** [models.py] *)

Record TracedSegment := {
  original_text : string;
  index : nat;
  primary_code : string;
  secondary_code : option string
}.

(** A [LabeledSegment] object.  The attributes it copies from the wrapped
    segment are read through [segment]; [obj_id] is what [id] returns for the
    object. *)
Record LabeledSegment := {
  obj_id : nat;
  segment : TracedSegment;
  label : string
}.

(** The candidate dictionaries built by the matcher
    (keys ["t_seg"], ["r_seg"], ["score"], ["match_type"]). *)
Module Candidate.
Record t := {
  t_seg : LabeledSegment;
  r_seg : LabeledSegment;
  score : float;
  match_type : string
}.
End Candidate.

(** The dictionaries returned by the assignment solver
    (keys ["target_segment"], ["reference_segment"], ["score"],
    ["match_type"]). *)
Module MatchResult.
Record t := {
  target_segment : LabeledSegment;
  reference_segment : LabeledSegment;
  score : float;
  match_type : string
}.
End MatchResult.

(** ** [processor.py] *)

(** The dictionary returned by [process_name]: ["NS"] and the two lists of
    ["NI"] (joined initials, individual initials). *)
Record NameProfile := {
  NS : list string;
  NI : list string * list string
}.

Module NameProcessor.

Definition normalize_text (text : string) : string :=
  Py.strip (Py.sub_ws (Py.lower text)).

Definition extract_alpha_tokens (text : string) : list string :=
  Py.findall_alpha text.

Definition remove_duplicates_preserve_order (items : list string) : list string :=
  snd (fold_left
         (fun (st : gset string * list string) item =>
            let '(seen, result) := st in
            if bool_decide (item ∈ seen) then (seen, result)
            else ({[ item ]} ∪ seen, result ++ [item]))
         items (∅, [])).

Definition normalize_muhammad (token : string) : option string :=
  if bool_decide (token ∈ NameConfig.MUHAMMAD_VARIANTS)
  then Some NameConfig.STANDARD_MUHAMMAD
  else None.

Definition extract_name_segments (tokens : list string) : list string :=
  let segments :=
    fold_left
      (fun segments token =>
         let normalized := normalize_muhammad token in
         if Py.truthy_opt normalized
         then segments ++ [default "" normalized]
         else if (1 <? String.length token)%nat
              then segments ++ [Py.capitalize token]
              else segments)
      tokens [] in
  remove_duplicates_preserve_order segments.

(** Loop state of [extract_initials]:
    [(ni_joined, ni_individual, buffer)]. *)
Definition initials_step (st : list string * list string * list string)
    (token : string) : list string * list string * list string :=
  let '(ni_joined, ni_individual, buffer) := st in
  if (String.length token =? 1)%nat then
    let char := Py.upper token in
    (ni_joined, ni_individual ++ [char], buffer ++ [char])
  else
    let ni_joined :=
      if (1 <=? length buffer)%nat then ni_joined ++ [Py.join buffer]
      else ni_joined in
    (ni_joined, ni_individual, []).

Definition extract_initials (tokens : list string) : list string * list string :=
  let '(ni_joined, ni_individual, buffer) :=
    fold_left initials_step tokens ([], [], []) in
  let ni_joined :=
    if (1 <=? length buffer)%nat then ni_joined ++ [Py.join buffer]
    else ni_joined in
  (remove_duplicates_preserve_order ni_joined,
   remove_duplicates_preserve_order ni_individual).

Definition process_name (name : string) : NameProfile :=
  let normalized := normalize_text name in
  let tokens := extract_alpha_tokens normalized in
  let ns := extract_name_segments tokens in
  let '(ni1, ni2) := extract_initials tokens in
  {| NS := ns; NI := (ni1, ni2) |}.

End NameProcessor.

(** ** [encoder.py] *)

Module PhoneticEncoder.
Section Encoder.
(** [metaphone.doublemetaphone]: the primary and the secondary code. *)
Variable doublemetaphone : string -> string * string.

(** [enumerate(segments)] from position [i]. *)
Fixpoint enumerate_from (i : nat) (segments : list string) : list (nat * string) :=
  match segments with
  | [] => []
  | token :: rest => (i, token) :: enumerate_from (S i) rest
  end.

Definition encode_segments (segments : list string) : list TracedSegment :=
  fold_left
    (fun traced_segments (it : nat * string) =>
       let '(i, token) := it in
       let dm_codes := doublemetaphone token in
       let primary := fst dm_codes in
       let secondary :=
         if Py.truthy (snd dm_codes) then Some (snd dm_codes) else None in
       traced_segments
         ++ [{| original_text := token; index := i;
                primary_code := primary; secondary_code := secondary |}])
    (enumerate_from 0 segments) [].
End Encoder.
End PhoneticEncoder.

(** ** [engine.py] *)

Module SimilarityEngine.
Section Engine.
(** [rapidfuzz.distance.JaroWinkler.similarity] *)
Variable jaro_winkler : string -> string -> float.

(** The four code combinations, in the order the scorer tries them. *)
Definition combinations (t_seg r_seg : TracedSegment)
  : list (option string * option string * string) :=
  [ (Some (primary_code t_seg), Some (primary_code r_seg), "Primary-Primary");
    (Some (primary_code t_seg), secondary_code r_seg, "Primary-Secondary");
    (secondary_code t_seg, Some (primary_code r_seg), "Secondary-Primary");
    (secondary_code t_seg, secondary_code r_seg, "Secondary-Secondary") ].

(** One turn of the loop over the combinations; the state is
    [(best_score, match_label)]. *)
Definition combination_step (st : float * string)
    (comb : option string * option string * string) : float * string :=
  let '(best_score, match_label) := st in
  let '(c1, c2, label) := comb in
  if Py.truthy_opt c1 && Py.truthy_opt c2 then
    let sim := jaro_winkler (default "" c1) (default "" c2) in
    if (best_score <? sim)%float then (sim, label)
    else (best_score, match_label)
  else (best_score, match_label).

(** The state after the loop: the best code similarity and its label. *)
Definition best_combination (t_seg r_seg : TracedSegment) : float * string :=
  fold_left combination_step (combinations t_seg r_seg) (0%float, "None").

Definition calculate_pair_score (t_seg r_seg : TracedSegment)
    (t_full_name r_full_name : option string) : float * string :=
  let '(best_score, match_label) := best_combination t_seg r_seg in
  if (best_score =? 1)%float then
    let word_sim :=
      if Py.truthy_opt t_full_name && Py.truthy_opt r_full_name then
        let norm_t :=
          Py.remove_spaces
            (NameProcessor.normalize_text (default "" t_full_name)) in
        let norm_r :=
          Py.remove_spaces
            (NameProcessor.normalize_text (default "" r_full_name)) in
        jaro_winkler norm_t norm_r
      else
        jaro_winkler (Py.lower (original_text t_seg))
                     (Py.lower (original_text r_seg)) in
    let weighted_score :=
      (best_score * NameConfig.PHONETIC_WEIGHT
       + word_sim * NameConfig.WORD_SIM_WEIGHT)%float in
    (weighted_score,
     match_label +:+ " (Weighted: 1.0->" +:+ Py.format_4f weighted_score +:+ ")")
  else (best_score, match_label).
End Engine.

(** Loop state of the assignment solver:
    [(taken_target_ids, taken_ref_ids, matches)]. *)
Definition assignment_step (st : gset nat * gset nat * list MatchResult.t)
    (cand : Candidate.t) : gset nat * gset nat * list MatchResult.t :=
  let '(taken_target_ids, taken_ref_ids, matches) := st in
  let t_id := obj_id (Candidate.t_seg cand) in
  let r_id := obj_id (Candidate.r_seg cand) in
  if bool_decide (t_id ∉ taken_target_ids) && bool_decide (r_id ∉ taken_ref_ids)
  then
    ({[ t_id ]} ∪ taken_target_ids,
     {[ r_id ]} ∪ taken_ref_ids,
     matches ++ [{| MatchResult.target_segment := Candidate.t_seg cand;
                    MatchResult.reference_segment := Candidate.r_seg cand;
                    MatchResult.score := Candidate.score cand;
                    MatchResult.match_type := Candidate.match_type cand |}])
  else st.

Definition solve_greedy_assignment (candidates : list Candidate.t)
  : list MatchResult.t :=
  let candidates := Py.sort_desc Candidate.score candidates in
  let '(_, _, matches) := fold_left assignment_step candidates (∅, ∅, []) in
  matches.

End SimilarityEngine.

(** ** [matcher.py] *)

(** The dictionary returned by [match]. *)
Record MatchReport := {
  F1 : float;
  N : nat;
  Target : string;
  Reference : string;
  Matches : list MatchResult.t;
  AllScores : list float
}.

Module PhoneticMatcher.
Section Matcher.
Variable doublemetaphone : string -> string * string.
Variable jaro_winkler : string -> string -> float.

(** [[LabeledSegment(s, lbl) for s in traced]]: one new object per
    segment; [next_id] is the identity of the first one. *)
Fixpoint label_segments (next_id : nat) (lbl : string)
    (traced : list TracedSegment) : list LabeledSegment :=
  match traced with
  | [] => []
  | s :: rest =>
      {| obj_id := next_id; segment := s; label := lbl |}
        :: label_segments (S next_id) lbl rest
  end.

(** The units of one name: its encoded name segments, then its encoded
    joined initials. *)
Definition units (next_id : nat) (data : NameProfile) : list LabeledSegment :=
  let ns_traced := PhoneticEncoder.encode_segments doublemetaphone (NS data) in
  let ni_traced :=
    PhoneticEncoder.encode_segments doublemetaphone (fst (NI data)) in
  label_segments next_id "[NS]" ns_traced
    ++ label_segments (next_id + length ns_traced) "[NI]" ni_traced.

(** The all-against-all loop that builds the candidates. *)
Definition generate_candidates (target_name reference_name : string)
    (t_units r_units : list LabeledSegment) : list Candidate.t :=
  fold_left
    (fun candidates t =>
       fold_left
         (fun candidates r =>
            let '(score, mtype) :=
              SimilarityEngine.calculate_pair_score jaro_winkler
                (segment t) (segment r)
                (Some target_name) (Some reference_name) in
            if (0 <? score)%float
            then candidates
                   ++ [{| Candidate.t_seg := t; Candidate.r_seg := r;
                          Candidate.score := score;
                          Candidate.match_type := mtype |}]
            else candidates)
         r_units candidates)
    t_units [].

Definition match_ (target_name reference_name : string) : MatchReport :=
  let t_data := NameProcessor.process_name target_name in
  let r_data := NameProcessor.process_name reference_name in
  let t_units := units 0 t_data in
  let r_units := units (length t_units) r_data in
  let candidates :=
    generate_candidates target_name reference_name t_units r_units in
  let matches := SimilarityEngine.solve_greedy_assignment candidates in
  let N := length t_units in
  let scores :=
    map (fun m => (MatchResult.score m * NameConfig.SCORE_MULTIPLIER)%float)
        matches in
  let scores := Py.sort_desc (fun x => x) scores in
  let top_n_scores := take N scores in
  let final_score :=
    if (0 <? N)%nat
    then (Py.sum top_n_scores / Py.float_of_nat N)%float
    else 0%float in
  {| F1 := Py.round final_score 2;
     N := N;
     Target := target_name;
     Reference := reference_name;
     Matches := matches;
     AllScores := top_n_scores |}.
End Matcher.
End PhoneticMatcher.

(** ** [api/main.py] *)

(** The JSON object returned by the [/match] route. *)
Record ScoreResponse := {
  similarity_score : float;
  similarity_label : string
}.

Module Api.
Section Routes.
Variable doublemetaphone : string -> string * string.
Variable jaro_winkler : string -> string -> float.

(** [calculate_score(payload)] for a payload with the fields [name1] and
    [name2]; the key ["F1"] is always present in the result of [match]. *)
Definition calculate_score (name1 name2 : string) : ScoreResponse :=
  let result :=
    PhoneticMatcher.match_ doublemetaphone jaro_winkler name1 name2 in
  let score := F1 result in
  let label := ScoreNormalizer.get_label score in
  {| similarity_score := score; similarity_label := label |}.
End Routes.
End Api.

(** ** The program on concrete inputs *)

(** Stand-ins for the two third-party functions, used to run the model: a
    similarity that tells equal strings from different ones, and the Double
    Metaphone codes of a few words. *)
Module Sample.

Definition jaro_winkler (a b : string) : float :=
  if String.eqb a b then 1%float else 0%float.

Definition doublemetaphone (token : string) : string * string :=
  if String.eqb token "John" then ("JN", "AN")
  else if String.eqb token "Smith" then ("SM0", "XMT")
  else if String.eqb token "Muhammad" then ("MHMT", "")
  else if String.eqb token "Doe" then ("T", "")
  else if String.eqb token "J" then ("J", "A")
  else ("", "").

(** A segment whose primary code is the empty string and which has no
    secondary code. *)
Definition empty_code_segment : TracedSegment :=
  {| original_text := "H"; index := 0;
     primary_code := ""; secondary_code := None |}.

Definition john : TracedSegment :=
  {| original_text := "John"; index := 0;
     primary_code := "JN"; secondary_code := Some "AN" |}.

End Sample.

(** ** The specification's notions *)

(** Definitions that follow the wording of the specification; the theorems
    below compare the program with them. *)
Module Spec.

(** Deduplication that preserves first-occurrence order: an item is kept,
    and its later copies are dropped. *)
Fixpoint first_occurrences (items : list string) : list string :=
  match items with
  | [] => []
  | x :: rest => x :: filter (λ y, y ≠ x) (first_occurrences rest)
  end.

(** A token is an initial iff it is exactly one character long. *)
Definition is_initial (token : string) : bool :=
  (String.length token =? 1)%nat.

(** The token is one of the known spelling variants. *)
Definition is_alias (token : string) : bool :=
  bool_decide (token ∈ NameConfig.MUHAMMAD_VARIANTS).

(** A token is a name segment iff it is an alias or has at least two
    characters. *)
Definition is_name_segment (token : string) : bool :=
  is_alias token || (2 <=? String.length token)%nat.

(** What a name segment contributes: the canonical form for an alias, the
    capitalized token otherwise. *)
Definition name_segment_form (token : string) : string :=
  if is_alias token then "Muhammad" else Py.capitalize token.

(** The maximal runs of consecutive initials, left to right: an initial
    joins the run of the initial that follows it, and starts a run of its
    own otherwise. *)
Fixpoint initial_runs (tokens : list string) : list (list string) :=
  match tokens with
  | [] => []
  | token :: rest =>
      let runs := initial_runs rest in
      if is_initial token then
        match head rest, runs with
        | Some next, run :: runs' =>
            if is_initial next then (token :: run) :: runs'
            else [token] :: runs
        | _, _ => [token] :: runs
        end
      else runs
  end.

(** A run joined into one upper-case string. *)
Definition upper_run (run : list string) : list string :=
  Py.upper <$> run.

Definition joined (run : list string) : string :=
  Py.join (upper_run run).

(** A list of tokens that does not end with an initial. *)
Definition closed_right (tokens : list string) : Prop :=
  ∀ token, last tokens = Some token → is_initial token = false.

(** A list of tokens that does not start with an initial. *)
Definition closed_left (tokens : list string) : Prop :=
  ∀ token, head tokens = Some token → is_initial token = false.


(** The runs still to come when the segmenter's loop is about to read
    [tokens] with the upper-cased initials [buffer] pending: the pending
    initials extend the first run when the next token is an initial, and are
    a run of their own otherwise. *)
Definition pending_run (buffer : list string) : list (list string) :=
  if (1 <=? length buffer)%nat then [buffer] else [].

Definition runs_after (buffer : list string) (tokens : list string)
  : list (list string) :=
  let runs := upper_run <$> initial_runs tokens in
  match head tokens, runs with
  | Some token, run :: runs' =>
      if is_initial token then (buffer ++ run) :: runs'
      else pending_run buffer ++ runs
  | _, _ => pending_run buffer ++ runs
  end.


(** The pairing a candidate becomes when the solver accepts it. *)
Definition pairing (cand : Candidate.t) : MatchResult.t :=
  {| MatchResult.target_segment := Candidate.t_seg cand;
     MatchResult.reference_segment := Candidate.r_seg cand;
     MatchResult.score := Candidate.score cand;
     MatchResult.match_type := Candidate.match_type cand |}.

(** The segment instances of a pairing, by identity. *)
Definition target_id (m : MatchResult.t) : nat :=
  obj_id (MatchResult.target_segment m).

Definition reference_id (m : MatchResult.t) : nat :=
  obj_id (MatchResult.reference_segment m).

(** A code is present when it is not [None]. *)
Definition present (c : option string) : bool :=
  match c with
  | Some _ => true
  | None => false
  end.

(** A code is usable when it is present and not the empty string. *)
Definition usable (c : option string) : bool :=
  match c with
  | Some (String _ _) => true
  | _ => false
  end.

Definition both (P : option string → bool)
    (comb : option string * option string * string) : bool :=
  P comb.1.1 && P comb.1.2.

(** Comparing the two codes of a combination: the similarity replaces the
    best one so far when it is greater. *)
Definition compare_codes (jaro_winkler : string → string → float)
    (st : float * string) (comb : option string * option string * string)
  : float * string :=
  let sim := jaro_winkler (default "" comb.1.1) (default "" comb.1.2) in
  if (st.1 <? sim)%float then (sim, comb.2) else st.


(** A full name, normalized: lower-cased, with all white space removed. *)
Definition squeezed (name : string) : string :=
  Py.str_filter (λ c, negb (Py.is_space c)) (Py.lower name).

(** The literal similarity of the tie-break, with the full names used when
    [supplied] holds of both. *)
Definition literal_similarity (jaro_winkler : string → string → float)
    (supplied : option string → bool)
    (t_seg r_seg : TracedSegment) (t_full_name r_full_name : option string)
  : float :=
  if supplied t_full_name && supplied r_full_name
  then jaro_winkler (squeezed (default "" t_full_name))
                    (squeezed (default "" r_full_name))
  else jaro_winkler (Py.lower (original_text t_seg))
                    (Py.lower (original_text r_seg)).

(** The blend of a perfect code match with a literal similarity. *)
Definition blended (word_sim : float) : float :=
  (1 * 0.85 + word_sim * 0.15)%float.

(** The label of a blended score. *)
Definition weighted_label (match_label : string) (score : float) : string :=
  match_label +:+ " (Weighted: 1.0->" +:+ Py.format_4f score +:+ ")".

(** White space in the string is made of plain spaces only. *)
Fixpoint single_spaced (s : string) : Prop :=
  match s with
  | EmptyString => True
  | String c s' => (Py.is_space c = true → c = " "%char) ∧ single_spaced s'
  end.

(** The candidates one pair of units contributes: the pair with its score
    and match type when the score is positive, nothing otherwise. *)
Definition pair_candidates (jaro_winkler : string → string → float)
    (target_name reference_name : string) (t r : LabeledSegment)
  : list Candidate.t :=
  let st :=
    SimilarityEngine.calculate_pair_score jaro_winkler (segment t) (segment r)
      (Some target_name) (Some reference_name) in
  if (0 <? st.1)%float
  then [{| Candidate.t_seg := t; Candidate.r_seg := r;
           Candidate.score := st.1; Candidate.match_type := st.2 |}]
  else [].

(** The number of units of a name: its deduplicated name segments plus its
    groups of joined initials. *)
Definition unit_count (name : string) : nat :=
  let data := NameProcessor.process_name name in
  length (NS data) + length (NI data).1.

(** The aggregate score of [n] target units and the accepted scores: the
    top [n] of the scores, scaled by 100 and sorted in decreasing order, are
    summed and divided by [n]; it is 0 when [n = 0]. *)
Definition aggregate (n : nat) (scores : list float) : float :=
  match n with
  | O => 0%float
  | S _ =>
      let scaled := (λ s, s * 100)%float <$> scores in
      (Py.sum (take n (Py.sort_desc (λ s, s) scaled)) / Py.float_of_nat n)%float
  end.

(** A float that is not NaN. *)
Definition number (x : float) : Prop := (x =? x)%float = true.

(** Decreasing order on floats. *)
Definition descending (xs : list float) : Prop :=
  StronglySorted (λ a b, (b <=? a)%float = true) xs.

(** The string contains a character of the class [[a-zA-Z]]. *)
Fixpoint has_alpha (s : string) : bool :=
match s with
| EmptyString => false
| String c s' => Py.is_alpha c || has_alpha s'
end.

(** *** Loop states *)

(** What [extract_initials] does after its loop, before deduplication. *)
Definition close_buffer (st : list string * list string * list string)
  : list string * list string :=
  let '(ni_joined, ni_individual, buffer) := st in
  (if (1 <=? length buffer)%nat then ni_joined ++ [Py.join buffer]
   else ni_joined,
   ni_individual).

(** What the scan maintains: the two sets hold exactly the instances of the
    pairings accepted so far, and no instance occurs twice on its side. *)
Definition scan_inv (st : gset nat * gset nat * list MatchResult.t) : Prop :=
  let '(taken_target_ids, taken_ref_ids, matches) := st in
  (∀ i, i ∈ taken_target_ids ↔ i ∈ target_id <$> matches)
  ∧ (∀ i, i ∈ taken_ref_ids ↔ i ∈ reference_id <$> matches)
  ∧ NoDup (target_id <$> matches)
  ∧ NoDup (reference_id <$> matches).

(** A candidate one of whose instances is taken. *)
Definition blocked (taken_t taken_r : gset nat) (cand : Candidate.t) : Prop :=
  obj_id (Candidate.t_seg cand) ∈ taken_t
  ∨ obj_id (Candidate.r_seg cand) ∈ taken_r.

(** *** Shapes of text *)

(** Every character of the string satisfies [p]. *)
Fixpoint str_all (p : ascii → bool) (s : string) : bool :=
match s with
| EmptyString => true
| String c s' => p c && str_all p s'
end.

(** An ASCII character: a code point below 128. *)
Definition is_ascii (c : ascii) : bool := (Py.code c <? 128)%N.

(** White space occurs only as single plain spaces; [after_space] tells that
    the character before the string is a space. *)
Fixpoint spaced (after_space : bool) (s : string) : Prop :=
match s with
| EmptyString => True
| String c s' =>
    if Py.is_space c
    then c = " "%char ∧ after_space = false ∧ spaced true s'
    else spaced false s'
end.

(** The string does not start with white space. *)
Definition no_lead (s : string) : Prop :=
match s with
| EmptyString => True
| String c _ => Py.is_space c = false
end.

(** The string does not end with white space. *)
Fixpoint no_trail (s : string) : Prop :=
match s with
| EmptyString => True
| String c EmptyString => Py.is_space c = false
| String _ s' => no_trail s'
end.

(** The run being read, as a token, when the run ends. *)
Definition emit (cur : string) : list string :=
  if String.eqb cur "" then [] else [cur].

(** The similarity of the two codes of a combination. *)
Definition similarity (jaro_winkler : string → string → float)
    (comb : option string * option string * string) : float :=
  jaro_winkler (default "" comb.1.1) (default "" comb.1.2).

(** The combinations the scorer compares: those with two usable codes. *)
Definition compared (t_seg r_seg : TracedSegment)
  : list (option string * option string * string) :=
  filter (λ comb, both usable comb = true)
    (SimilarityEngine.combinations t_seg r_seg).

(** A segment none of whose codes can be compared. *)
Definition no_usable_code (s : TracedSegment) : Prop :=
  usable (Some (primary_code s)) = false ∧ usable (secondary_code s) = false.

End Spec.

(** ** Sample runs *)

Example lower_ex : Py.lower "John  SMITH-3" = "john  smith-3".
Proof. reflexivity. Qed.

Example capitalize_ex : Py.capitalize "mcDONALD" = "Mcdonald".
Proof. reflexivity. Qed.

Example sub_ws_ex : Py.strip (Py.sub_ws "  a   b  c ") = "a b c".
Proof. vm_compute. reflexivity. Qed.

Example findall_ex : Py.findall_alpha "o'neil 2nd j.k" = ["o"; "neil"; "nd"; "j"; "k"].
Proof. reflexivity. Qed.

Example round_ex1 : Py.round 2.675%float 2 = 2.67%float.
Proof. vm_compute. reflexivity. Qed.

Example round_ex2 : Py.round 0.125%float 2 = 0.12%float.
Proof. vm_compute. reflexivity. Qed.

Example round_ex3 : Py.round 66.666666666666671%float 2 = 66.67%float.
Proof. vm_compute. reflexivity. Qed.

Example format_ex : Py.format_4f 0.93125%float = "0.9313".
Proof. vm_compute. reflexivity. Qed.

Example sort_ex :
  Py.sort_desc fst [(1%float, "a"); (3%float, "b"); (1%float, "c"); (2%float, "d"); (3%float, "e")]
  = [(3%float, "b"); (3%float, "e"); (2%float, "d"); (1%float, "a"); (1%float, "c")].
Proof. vm_compute. reflexivity. Qed.

Example process_name_ex :
  NameProcessor.process_name "  J. K.  Rowling-md  rowling x"
  = {| NS := ["Rowling"; "Muhammad"]; NI := (["JK"; "X"], ["J"; "K"; "X"]) |}.
Proof. vm_compute. reflexivity. Qed.

Example encode_ex :
  PhoneticEncoder.encode_segments Sample.doublemetaphone ["John"; "Doe"]
  = [ {| original_text := "John"; index := 0;
         primary_code := "JN"; secondary_code := Some "AN" |};
      {| original_text := "Doe"; index := 1;
         primary_code := "T"; secondary_code := None |} ].
Proof. vm_compute. reflexivity. Qed.

Example match_ex :
  let r := PhoneticMatcher.match_ Sample.doublemetaphone Sample.jaro_winkler
             "John Doe" "J Doe" in
  (F1 r, N r, AllScores r, length (Matches r)) = (42.5%float, 2, [85%float], 1).
Proof. vm_compute. reflexivity. Qed.

Example initial_runs_ex :
  Spec.initial_runs ["j"; "k"; "rowling"; "x"; "j"; "k"; "de"; "la"; "m"]
  = [["j"; "k"]; ["x"; "j"; "k"]; ["m"]].
Proof. reflexivity. Qed.

Example extract_initials_ex :
  NameProcessor.extract_initials ["j"; "k"; "rowling"; "x"; "j"; "k"; "de"; "j"; "k"]
  = (["JK"; "XJK"], ["J"; "K"; "X"]).
Proof. vm_compute. reflexivity. Qed.

Example extract_name_segments_ex :
  NameProcessor.extract_name_segments ["md"; "a"; "abu"; "mohd"; "bakar"; "abu"]
  = ["Muhammad"; "Abu"; "Bakar"].
Proof. vm_compute. reflexivity. Qed.

Example get_label_ex :
  (ScoreNormalizer.get_label 30, ScoreNormalizer.get_label 30.01,
   ScoreNormalizer.get_label 94, ScoreNormalizer.get_label 99.99,
   ScoreNormalizer.get_label 100)
  = ("Names Do Not Match", "Weak Match", "Highly Similar", "Almost Identical",
     "Identical Name").
Proof. vm_compute. reflexivity. Qed.

(** Two wrapper objects around the same segment are two instances: each can
    be matched once. *)
Example same_text_two_instances :
  let a1 := {| obj_id := 0; segment := Sample.john; label := "[NS]" |} in
  let a2 := {| obj_id := 1; segment := Sample.john; label := "[NS]" |} in
  let b1 := {| obj_id := 2; segment := Sample.john; label := "[NS]" |} in
  let b2 := {| obj_id := 3; segment := Sample.john; label := "[NS]" |} in
  let cand t r := {| Candidate.t_seg := t; Candidate.r_seg := r;
                     Candidate.score := 1; Candidate.match_type := "Primary-Primary" |} in
  SimilarityEngine.solve_greedy_assignment
    [cand a1 b1; cand a1 b2; cand a2 b1; cand a2 b2]
  = [Spec.pairing (cand a1 b1); Spec.pairing (cand a2 b2)].
Proof. vm_compute. reflexivity. Qed.

Example scorer_ex :
  SimilarityEngine.calculate_pair_score Sample.jaro_winkler
    Sample.john Sample.john (Some "John  Smith") (Some "john smith")
  = (1%float, "Primary-Primary (Weighted: 1.0->1.0000)").
Proof. vm_compute. reflexivity. Qed.

Example scorer_empty_code_ex :
  SimilarityEngine.calculate_pair_score Sample.jaro_winkler
    Sample.empty_code_segment Sample.empty_code_segment None None
  = (0%float, "None").
Proof. vm_compute. reflexivity. Qed.

(** ** Facts about binary64 comparisons *)

Module FloatFacts.

Lemma pos_compare_cont_eq (m1 m2 : positive) :
  Pos.compare_cont Eq m1 m2 = (m1 ?= m2)%positive.
Proof. reflexivity. Qed.

(** Swapping the arguments of a comparison flips its result. *)
Lemma SFcompare_swap (a b : spec_float) :
  SFcompare b a = CompOpp <$> SFcompare a b.
Proof.
  destruct a as [sa|sa| |sa ma ea], b as [sb|sb| |sb mb eb]; simpl;
    try destruct sa; try destruct sb; try reflexivity;
    rewrite (Z.compare_antisym ea eb), !pos_compare_cont_eq,
            (Pos.compare_antisym ma mb);
    destruct (ea ?= eb)%Z; simpl; try reflexivity;
    destruct (ma ?= mb)%positive; reflexivity.
Qed.

Lemma SFcompare_refl (a : spec_float) :
  a ≠ S754_nan → SFcompare a a = Some Eq.
Proof.
  destruct a as [s|s| |s m e]; simpl; try done; intros _.
  - by destruct s.
  - change (Pos.compare_cont Eq) with Pos.compare.
    rewrite Z.compare_refl, Pos.compare_refl. by destruct s.
Qed.

(** Comparisons compose along a chain that never goes up. *)
Lemma SFcompare_chain (a b c : spec_float) (c1 c2 : comparison) :
  SFcompare a b = Some c1 → SFcompare b c = Some c2 →
  c1 ≠ Gt → c2 ≠ Gt →
  SFcompare a c = Some (match c1 with Eq => c2 | _ => Lt end).
Proof.
  intros H1 H2 N1 N2.
  destruct a as [sa|sa| |sa ma ea], b as [sb|sb| |sb mb eb],
           c as [sc|sc| |sc mc ec]; simpl in *;
    try discriminate;
    try destruct sa; try destruct sb; try destruct sc; simpl in *;
    change (Pos.compare_cont Eq) with Pos.compare in *;
    repeat match goal with
      | N : context [(?x ?= ?y)%Z] |- _ => destruct (Z.compare_spec x y)
      | |- context [(?x ?= ?y)%Z] => destruct (Z.compare_spec x y)
      | N : context [(?x ?= ?y)%positive] |- _ => destruct (Pos.compare_spec x y)
      | |- context [(?x ?= ?y)%positive] => destruct (Pos.compare_spec x y)
      end;
    simpl in *;
    injection H1 as <-; injection H2 as <-;
    try congruence; try lia.
Qed.

Local Open Scope float_scope.

Lemma ltb_compare (x y : float) :
  (x <? y) = true ↔ SFcompare (Prim2SF x) (Prim2SF y) = Some Lt.
Proof.
  rewrite ltb_spec. unfold SFltb.
  destruct (SFcompare _ _) as [[]|]; split; congruence.
Qed.

Lemma leb_compare (x y : float) :
  (x <=? y) = true ↔
  ∃ c, SFcompare (Prim2SF x) (Prim2SF y) = Some c ∧ c ≠ Gt.
Proof.
  rewrite leb_spec. unfold SFleb.
  destruct (SFcompare _ _) as [[]|]; split;
    try (intros [c [[= <-] Hc]]); try congruence; eauto.
Qed.

Lemma eqb_compare (x y : float) :
  (x =? y) = true ↔ SFcompare (Prim2SF x) (Prim2SF y) = Some Eq.
Proof.
  rewrite FloatAxioms.eqb_spec. unfold SFeqb.
  destruct (SFcompare _ _) as [[]|]; split; congruence.
Qed.

(** [x] is a number (not NaN) exactly when [x == x]. *)
Lemma number_compare (x y : float) :
  (x =? x) = true → (y =? y) = true →
  is_Some (SFcompare (Prim2SF x) (Prim2SF y)).
Proof.
  rewrite !eqb_compare.
  destruct (Prim2SF x), (Prim2SF y); simpl; try discriminate; eauto.
Qed.

Lemma leb_number_l (x y : float) : (x <=? y) = true → (x =? x) = true.
Proof.
  rewrite leb_compare, eqb_compare. intros (c & Hc & _).
  apply SFcompare_refl. intros E. by rewrite E in Hc.
Qed.

Lemma ltb_number_l (x y : float) : (x <? y) = true → (x =? x) = true.
Proof.
  rewrite ltb_compare, eqb_compare. intros Hc.
  apply SFcompare_refl. intros E. by rewrite E in Hc.
Qed.

Lemma ltb_number_r (x y : float) : (x <? y) = true → (y =? y) = true.
Proof.
  rewrite ltb_compare, eqb_compare. intros Hc.
  apply SFcompare_refl. intros E. rewrite E in Hc. by destruct (Prim2SF x).
Qed.

Lemma leb_number_r (x y : float) : (x <=? y) = true → (y =? y) = true.
Proof.
  rewrite leb_compare, eqb_compare. intros (c & Hc & _).
  apply SFcompare_refl. intros E. rewrite E in Hc. by destruct (Prim2SF x).
Qed.

Lemma ltb_leb (x y : float) : (x <? y) = true → (x <=? y) = true.
Proof. rewrite ltb_compare, leb_compare. intros ->. by exists Lt. Qed.

Lemma ltb_not_leb (x y : float) : (x <? y) = true → (y <=? x) = false.
Proof.
  rewrite ltb_compare. intros H.
  apply not_true_is_false. rewrite leb_compare. intros (c & Hc & Hgt).
  rewrite SFcompare_swap, H in Hc. simpl in Hc. congruence.
Qed.

Lemma leb_not_ltb (x y : float) : (x <=? y) = true → (y <? x) = false.
Proof.
  intros H. apply not_true_is_false. intros H'.
  apply ltb_not_leb in H'. congruence.
Qed.

Lemma leb_trans (x y z : float) :
  (x <=? y) = true → (y <=? z) = true → (x <=? z) = true.
Proof.
  rewrite !leb_compare. intros (c1 & H1 & N1) (c2 & H2 & N2).
  eexists. split; [by eapply SFcompare_chain|]. by destruct c1.
Qed.

Lemma leb_ltb_trans (x y z : float) :
  (x <=? y) = true → (y <? z) = true → (x <? z) = true.
Proof.
  rewrite leb_compare, !ltb_compare. intros (c1 & H1 & N1) H2.
  rewrite (SFcompare_chain _ _ _ _ _ H1 H2) by done. by destruct c1.
Qed.

Lemma ltb_leb_trans (x y z : float) :
  (x <? y) = true → (y <=? z) = true → (x <? z) = true.
Proof.
  rewrite leb_compare, !ltb_compare. intros H1 (c2 & H2 & N2).
  by rewrite (SFcompare_chain _ _ _ _ _ H1 H2).
Qed.

(** On numbers the order is total. *)
Lemma not_ltb_leb (x y : float) :
  (x =? x) = true → (y =? y) = true → (x <? y) = false → (y <=? x) = true.
Proof.
  intros Hx Hy H. destruct (number_compare x y Hx Hy) as [c Hc].
  rewrite leb_compare, SFcompare_swap, Hc. simpl.
  destruct c; try (eexists; split; [reflexivity|done]).
  apply ltb_compare in Hc. congruence.
Qed.

Lemma not_leb_ltb (x y : float) :
  (x =? x) = true → (y =? y) = true → (x <=? y) = false → (y <? x) = true.
Proof.
  intros Hx Hy H. destruct (number_compare x y Hx Hy) as [c Hc].
  rewrite ltb_compare, SFcompare_swap, Hc. simpl.
  destruct c; try reflexivity;
    (assert ((x <=? y) = true) by (apply leb_compare; eexists; split; [exact Hc|done]));
    congruence.
Qed.

Lemma leb_not_ltb_eqb (x y : float) :
  (x <=? y) = true → (x <? y) = false → (x =? y) = true.
Proof.
  rewrite leb_compare, eqb_compare. intros (c & Hc & N) H.
  destruct c; try done. apply ltb_compare in Hc. congruence.
Qed.

(** [==] with a finite non-zero float is equality. *)
Lemma eqb_finite_eq (x y : float) s m e :
  Prim2SF y = S754_finite s m e → (x =? y) = true → x = y.
Proof.
  intros Hy. rewrite eqb_compare, Hy. intros H.
  rewrite <- (SF2Prim_Prim2SF x), <- (SF2Prim_Prim2SF y), Hy. f_equal.
  destruct (Prim2SF x) as [| | |s1 m1 e1]; simpl in H;
    try discriminate; try (destruct s; discriminate);
    try (destruct s0, s; discriminate).
  change (Pos.compare_cont Eq) with Pos.compare in H.
  destruct s1, s; try discriminate;
    destruct (Z.compare_spec e1 e); try discriminate;
    destruct (Pos.compare_spec m1 m); try discriminate; by subst.
Qed.

(** Shifting a non-negative mantissa to the right keeps it non-negative. *)
Lemma shr_1_nonneg (mrs : shr_record) :
  (0 ≤ shr_m mrs)%Z → (0 ≤ shr_m (shr_1 mrs))%Z.
Proof.
  destruct mrs as [[|[p|p|]|p] r s]; simpl; lia.
Qed.

Lemma iter_shr_1_nonneg (p : positive) (mrs : shr_record) :
  (0 ≤ shr_m mrs)%Z → (0 ≤ shr_m (SpecFloat.iter_pos shr_1 p mrs))%Z.
Proof.
  revert mrs. induction p as [p IH|p IH|]; intros mrs H; simpl.
  - by apply IH, IH, shr_1_nonneg.
  - by apply IH, IH.
  - by apply shr_1_nonneg.
Qed.

Lemma shr_fexp_nonneg (m e : Z) (l : location) :
  (0 ≤ m)%Z → (0 ≤ shr_m (shr_fexp prec emax m e l).1)%Z.
Proof.
  intros H. unfold shr_fexp, shr.
  assert (H0 : (0 ≤ shr_m (shr_record_of_loc m l))%Z)
    by (by destruct l as [|[]]).
  destruct (fexp prec emax (Zdigits2 m + e) - e)%Z; simpl; try done.
  by apply iter_shr_1_nonneg.
Qed.

Lemma round_nearest_even_nonneg (m : Z) (l : location) :
  (0 ≤ m)%Z → (0 ≤ round_nearest_even m l)%Z.
Proof.
  intros H. destruct l as [|[]]; simpl; try done; try lia.
  destruct (Z.even m); lia.
Qed.

(** Rounding a non-negative mantissa never yields NaN. *)
Lemma binary_round_aux_number (s : bool) (m e : Z) (l : location) :
  (0 ≤ m)%Z → binary_round_aux prec emax s m e l ≠ S754_nan.
Proof.
  intros H. unfold binary_round_aux.
  pose proof (shr_fexp_nonneg m e l H) as H1.
  destruct (shr_fexp prec emax m e l) as [mrs' e'].
  pose proof (shr_fexp_nonneg
                (round_nearest_even (shr_m mrs') (loc_of_shr_record mrs'))
                e' loc_Exact
                (round_nearest_even_nonneg _ _ H1)) as H2.
  destruct (shr_fexp prec emax _ e' loc_Exact) as [mrs'' e''].
  simpl in H2. destruct (shr_m mrs''); try done.
  by destruct (e'' <=? emax - prec)%Z.
Qed.

(** A positive score scaled by 100 is a number. *)
Lemma scaled_number (x : float) :
  (0 <? x) = true → (x * 100 =? x * 100) = true.
Proof.
  rewrite ltb_compare, eqb_compare, mul_spec. intros H.
  apply SFcompare_refl.
  change (Prim2SF 0) with (S754_zero false) in H.
  change (Prim2SF 100) with (S754_finite false 7036874417766400 (-46)).
  destruct (Prim2SF x) as [s|s| |s m e]; simpl in H; try done.
  by apply binary_round_aux_number.
Qed.
End FloatFacts.

(** ** The score labeler *)

Section Labeler.
Import ScoreNormalizer FloatFacts.
Local Open Scope float_scope.

(** A score above [lo] is not below a threshold [hi <= lo]. *)
Lemma above_threshold (hi lo score : float) :
  (hi <=? lo) = true → (lo <? score) = true → (score <=? hi) = false.
Proof.
  intros Hhl Hlo. apply ltb_not_leb. by eapply leb_ltb_trans.
Qed.

Lemma eqb_100 (score : float) : (score =? 100) = true → score = 100.
Proof. by apply (eqb_finite_eq _ _ false 7036874417766400 (-46)). Qed.

(** Rewrites the tests of the branches that lie below [lo]. *)
Ltac below lo H :=
  repeat match goal with
    | |- context [(?x <=? ?hi)] =>
        rewrite (above_threshold hi lo x eq_refl H)
    end;
  rewrite ?andb_false_r.

(** C5. For a score in [0, 100] the labeler returns "Names Do Not Match"
    on [0,30], "Weak Match" on (30,60], "Slightly Similar" on (60,75],
    "Somewhat Similar" on (75,88], "Highly Similar" on (88,94],
    "Almost Identical" on (94,100) and "Identical Name" at 100; these
    ranges cover [0, 100], so the fall-through label is never returned. *)
Theorem get_label_ranges (score : float) :
  (0 <=? score) = true → (score <=? 100) = true →
  ((score <=? 30) = true → get_label score = "Names Do Not Match")
  ∧ ((30 <? score) = true → (score <=? 60) = true →
     get_label score = "Weak Match")
  ∧ ((60 <? score) = true → (score <=? 75) = true →
     get_label score = "Slightly Similar")
  ∧ ((75 <? score) = true → (score <=? 88) = true →
     get_label score = "Somewhat Similar")
  ∧ ((88 <? score) = true → (score <=? 94) = true →
     get_label score = "Highly Similar")
  ∧ ((94 <? score) = true → (score <? 100) = true →
     get_label score = "Almost Identical")
  ∧ ((score =? 100) = true → get_label score = "Identical Name")
  ∧ get_label score ≠ "Unknown".
Proof.
  intros H0 H100.
  assert (Hnum : (score =? score) = true) by (by eapply leb_number_r).
  repeat split.
  - intros H. unfold get_label. by rewrite H.
  - intros Hlo Hhi. unfold get_label.
    rewrite (ltb_not_leb _ _ Hlo). by rewrite Hlo, Hhi.
  - intros Hlo Hhi. unfold get_label.
    rewrite Hhi, Hlo. by below 60 Hlo.
  - intros Hlo Hhi. unfold get_label.
    rewrite Hhi, Hlo. by below 75 Hlo.
  - intros Hlo Hhi. unfold get_label.
    rewrite Hhi, Hlo. by below 88 Hlo.
  - intros Hlo Hhi. unfold get_label.
    rewrite Hhi, Hlo. by below 94 Hlo.
  - intros H. by rewrite (eqb_100 _ H).
  - unfold get_label.
    destruct (score <=? 30) eqn:E30; [done|].
    rewrite (not_leb_ltb score 30 Hnum eq_refl E30). simpl.
    destruct (score <=? 60) eqn:E60; [done|].
    rewrite (not_leb_ltb score 60 Hnum eq_refl E60). simpl.
    destruct (score <=? 75) eqn:E75; [done|].
    rewrite (not_leb_ltb score 75 Hnum eq_refl E75). simpl.
    destruct (score <=? 88) eqn:E88; [done|].
    rewrite (not_leb_ltb score 88 Hnum eq_refl E88). simpl.
    destruct (score <=? 94) eqn:E94; [done|].
    rewrite (not_leb_ltb score 94 Hnum eq_refl E94). simpl.
    destruct (score <? 100) eqn:E100; [done|].
    by rewrite (leb_not_ltb_eqb _ _ H100 E100).
Qed.

Lemma get_label_ranges_witness :
  (0 <=? 88.5) = true ∧ (88.5 <=? 100) = true
  ∧ get_label 88.5 = "Highly Similar".
Proof.
  split; [reflexivity|]. split; [reflexivity|].
  by apply (get_label_ranges 88.5).
Defined.
End Labeler.

(** ** The name segmenter *)

Section Segmenter.
Import NameProcessor Spec.

Lemma filter_first_occurrences_seen (seen : gset string) x (l : list string) :
  x ∈ seen →
  filter (λ y, y ∉ seen) (filter (λ y, y ≠ x) l) = filter (λ y, y ∉ seen) l.
Proof.
  intros Hx. rewrite list_filter_filter. apply list_filter_iff.
  intros y. split; [tauto|]. intros Hy. split; [done|]. by intros ->.
Qed.

Lemma filter_first_occurrences_new (seen : gset string) x (l : list string) :
  filter (λ y, y ∉ {[ x ]} ∪ seen) l
  = filter (λ y, y ∉ seen) (filter (λ y, y ≠ x) l).
Proof.
  rewrite list_filter_filter. apply list_filter_iff. intros y.
  rewrite not_elem_of_union, not_elem_of_singleton. tauto.
Qed.

Lemma filter_not_in_empty (seen : gset string) (l : list string) :
  seen = ∅ → filter (λ y, y ∉ seen) l = l.
Proof.
  intros ->. induction l as [|x l IH]; [done|].
  rewrite filter_cons_True by apply not_elem_of_empty. by rewrite IH.
Qed.

(** The loop of [remove_duplicates_preserve_order] from any state. *)
Lemma remove_duplicates_loop (items : list string) seen result :
  snd (fold_left
         (fun (st : gset string * list string) item =>
            let '(seen, result) := st in
            if bool_decide (item ∈ seen) then (seen, result)
            else ({[ item ]} ∪ seen, result ++ [item]))
         items (seen, result))
  = result ++ filter (λ y, y ∉ seen) (first_occurrences items).
Proof.
  revert seen result. induction items as [|x rest IH]; intros seen result.
  - simpl. by rewrite app_nil_r.
  - simpl. case_bool_decide as Hx.
    + rewrite IH, filter_cons_False by tauto.
      by rewrite filter_first_occurrences_seen.
    + rewrite IH, filter_cons_True by done.
      rewrite <- app_assoc. simpl.
      by rewrite filter_first_occurrences_new.
Qed.

(** [remove_duplicates_preserve_order] keeps first occurrences. *)
Lemma remove_duplicates_spec (items : list string) :
  remove_duplicates_preserve_order items = first_occurrences items.
Proof.
  unfold remove_duplicates_preserve_order.
  rewrite remove_duplicates_loop. simpl.
  by apply filter_not_in_empty.
Qed.

Lemma first_occurrences_elem (x : string) (items : list string) :
  x ∈ first_occurrences items ↔ x ∈ items.
Proof.
  induction items as [|y rest IH]; simpl; [done|].
  rewrite !elem_of_cons, list_elem_of_filter, IH.
  destruct (decide (x = y)); tauto.
Qed.

Lemma first_occurrences_NoDup (items : list string) :
  NoDup (first_occurrences items).
Proof.
  induction items as [|y rest IH]; simpl; [constructor|].
  constructor.
  - rewrite list_elem_of_filter. tauto.
  - by apply NoDup_filter.
Qed.

(** *** Name segments *)

(** One turn of the loop of [extract_name_segments]. *)
Lemma name_segment_step (segments : list string) (token : string) :
  (let normalized := normalize_muhammad token in
   if Py.truthy_opt normalized
   then segments ++ [default "" normalized]
   else if (1 <? String.length token)%nat
        then segments ++ [Py.capitalize token]
        else segments)
  = segments
      ++ (if is_name_segment token then [name_segment_form token] else []).
Proof.
  unfold normalize_muhammad, is_name_segment, name_segment_form, is_alias.
  case_bool_decide; simpl; [done|].
  destruct (String.length token) as [|[|n]]; simpl; by rewrite ?app_nil_r.
Qed.

Lemma name_segment_loop (tokens segments : list string) :
  fold_left
    (fun segments token =>
       let normalized := normalize_muhammad token in
       if Py.truthy_opt normalized
       then segments ++ [default "" normalized]
       else if (1 <? String.length token)%nat
            then segments ++ [Py.capitalize token]
            else segments)
    tokens segments
  = segments
      ++ (name_segment_form <$> filter (λ t, is_name_segment t = true) tokens).
Proof.
  revert segments. induction tokens as [|token rest IH]; intros segments.
  - simpl. by rewrite app_nil_r.
  - cbn [fold_left]. rewrite name_segment_step, IH, <- app_assoc. f_equal.
    rewrite filter_cons. destruct (is_name_segment token); by case_decide.
Qed.

(** No spelling variant is a single character. *)
Lemma alias_length (token : string) :
  is_alias token = true → (2 ≤ String.length token)%nat.
Proof.
  unfold is_alias. intros H%bool_decide_eq_true.
  unfold NameConfig.MUHAMMAD_VARIANTS in H.
  rewrite !elem_of_union, !elem_of_singleton in H.
  repeat destruct H as [H|H]; subst; simpl; lia.
Qed.

(** C8. A token is added to the NS list iff it is a spelling variant (the
    canonical form "Muhammad" is appended in its place) or has at least two
    characters (its capitalized form is appended); the list is then
    deduplicated.  A token of exactly one character is never added. *)
Theorem extract_name_segments_spec (tokens : list string) :
  extract_name_segments tokens
  = first_occurrences
      (name_segment_form <$> filter (λ t, is_name_segment t = true) tokens)
  ∧ (∀ x, x ∈ extract_name_segments tokens ↔
          ∃ token, token ∈ tokens ∧ is_name_segment token = true
                   ∧ x = name_segment_form token)
  ∧ (∀ token, String.length token = 1 → is_name_segment token = false).
Proof.
  assert (E : extract_name_segments tokens
              = first_occurrences
                  (name_segment_form
                     <$> filter (λ t, is_name_segment t = true) tokens)).
  { unfold extract_name_segments.
    by rewrite name_segment_loop, remove_duplicates_spec. }
  split; [exact E|]. split.
  - intros x. rewrite E, first_occurrences_elem, list_elem_of_fmap.
    split.
    + intros (token & -> & [Hseg Hin]%list_elem_of_filter). eauto.
    + intros (token & Hin & Hseg & ->). exists token.
      by rewrite list_elem_of_filter.
  - intros token Hlen. unfold is_name_segment.
    rewrite Hlen. simpl. rewrite orb_false_r.
    destruct (is_alias token) eqn:Ha; [|done].
    apply alias_length in Ha. lia.
Qed.

(** *** Initials *)

Lemma initial_runs_initial (token : string) (rest : list string) :
  is_initial token = true →
  ∃ run runs, initial_runs (token :: rest) = (token :: run) :: runs.
Proof.
  intros Ht. simpl. rewrite Ht.
  destruct (head rest) as [next|], (initial_runs rest) as [|run runs];
    try destruct (is_initial next); eauto.
Qed.

Lemma runs_after_nil (tokens : list string) :
  runs_after [] tokens = upper_run <$> initial_runs tokens.
Proof.
  unfold runs_after.
  destruct (head tokens) as [token|],
           (upper_run <$> initial_runs tokens) as [|run runs];
    try destruct (is_initial token); done.
Qed.

Lemma pending_run_snoc (buffer : list string) (char : string) :
  pending_run (buffer ++ [char]) = [buffer ++ [char]].
Proof.
  unfold pending_run. rewrite length_app. simpl.
  by replace (length buffer + 1) with (S (length buffer)) by lia.
Qed.

(** Reading an initial moves it from the tokens to the buffer. *)
Lemma runs_after_initial (buffer : list string) token (rest : list string) :
  is_initial token = true →
  runs_after buffer (token :: rest)
  = runs_after (buffer ++ [Py.upper token]) rest.
Proof.
  intros Ht. unfold runs_after. cbn [head initial_runs]. rewrite Ht.
  rewrite pending_run_snoc.
  destruct (head rest) as [next|] eqn:Hhd,
           (initial_runs rest) as [|run runs] eqn:Hruns; simpl;
    try (destruct (is_initial next) eqn:Hn); simpl;
    by rewrite ?Ht, <- ?app_assoc.
Qed.

(** Reading a longer token closes the pending run. *)
Lemma runs_after_break (buffer : list string) token (rest : list string) :
  is_initial token = false →
  runs_after buffer (token :: rest)
  = pending_run buffer ++ runs_after [] rest.
Proof.
  intros Ht. rewrite runs_after_nil. unfold runs_after.
  cbn [head initial_runs]. rewrite Ht.
  by destruct (upper_run <$> initial_runs rest).
Qed.

Lemma initials_loop (tokens ni_joined ni_individual buffer : list string) :
  close_buffer
    (fold_left initials_step tokens (ni_joined, ni_individual, buffer))
  = (ni_joined ++ (Py.join <$> runs_after buffer tokens),
     ni_individual
       ++ (Py.upper <$> filter (λ t, is_initial t = true) tokens)).
Proof.
  revert ni_joined ni_individual buffer.
  induction tokens as [|token rest IH]; intros ni_joined ni_individual buffer.
  - unfold runs_after, pending_run.
    destruct buffer; simpl; by rewrite ?app_nil_r.
  - cbn [fold_left]. unfold initials_step at 2.
    fold (is_initial token). rewrite filter_cons.
    destruct (is_initial token) eqn:Ht.
    + rewrite IH, <- runs_after_initial by done.
      case_decide; [|done]. by rewrite <- app_assoc.
    + rewrite runs_after_break by done.
      case_decide; [done|].
      assert (E : (if (1 <=? length buffer)%nat
                   then ni_joined ++ [Py.join buffer] else ni_joined)
                  = ni_joined ++ (Py.join <$> pending_run buffer)).
      { unfold pending_run.
        destruct (1 <=? length buffer)%nat; simpl; by rewrite ?app_nil_r. }
      by rewrite E, IH, fmap_app, <- app_assoc.
Qed.

(** A maximal run at the front of the tokens is the first run. *)
Lemma initial_runs_front (run after : list string) :
  run ≠ [] → Forall (λ t, is_initial t = true) run → closed_left after →
  initial_runs (run ++ after) = run :: initial_runs after.
Proof.
  intros Hne Hall Hafter.
  induction run as [|token run IH]; [done|].
  apply Forall_cons in Hall as [Ht Hall].
  cbn [app initial_runs]. rewrite Ht.
  destruct run as [|next run].
  - simpl. destruct after as [|next after]; [done|]. simpl.
    rewrite (Hafter next) by done.
    by destruct (is_initial next), (initial_runs after).
  - rewrite IH by done. simpl.
    by apply Forall_cons in Hall as [-> _].
Qed.

(** Tokens that end with a longer token do not interfere with the runs
    that follow. *)
Lemma initial_runs_app (before tokens : list string) :
  closed_right before →
  initial_runs (before ++ tokens) = initial_runs before ++ initial_runs tokens.
Proof.
  intros Hclosed. induction before as [|token before IH]; [done|].
  destruct before as [|next before].
  - cbn [app initial_runs]. by rewrite (Hclosed token).
  - assert (Hc : closed_right (next :: before)).
    { intros t Ht. apply Hclosed. by rewrite last_cons, Ht. }
    specialize (IH Hc).
    assert (Hhd : head ((next :: before) ++ tokens) = head (next :: before))
      by done.
    destruct (is_initial next) eqn:Hn.
    + destruct (initial_runs_initial next before Hn) as (run & runs & E).
      revert IH Hhd E. generalize (next :: before). intros l IH Hhd E.
      cbn [app initial_runs]. rewrite IH, Hhd, E. simpl.
      by destruct (is_initial token), (head l) as [n|];
        try destruct (is_initial n).
    + revert IH Hhd. generalize (eq_refl : head (next :: before) = Some next).
      generalize (next :: before). intros l Hl IH Hhd.
      cbn [app initial_runs]. rewrite IH, Hhd, Hl, Hn.
      by destruct (is_initial token), (initial_runs l), (initial_runs tokens).
Qed.

(** C7. Each maximal run of one-character tokens is joined, upper-cased,
    into one string of the joined-initials list; every one-character token,
    upper-cased, goes to the individual-initials list; a longer token ends
    the run in progress; both lists are deduplicated, first occurrences
    kept.  The second and third parts spell out the first: a run of
    initials that is bounded on both sides by a longer token or by an end of
    the list yields its joined string, and every initial yields itself. *)
Theorem extract_initials_spec (tokens : list string) :
  extract_initials tokens
  = (first_occurrences (joined <$> initial_runs tokens),
     first_occurrences
       (Py.upper <$> filter (λ t, is_initial t = true) tokens))
  ∧ (∀ before run after,
       tokens = before ++ run ++ after →
       run ≠ [] → Forall (λ t, is_initial t = true) run →
       closed_right before → closed_left after →
       joined run ∈ (extract_initials tokens).1)
  ∧ (∀ token,
       token ∈ tokens → is_initial token = true →
       Py.upper token ∈ (extract_initials tokens).2).
Proof.
  assert (E : extract_initials tokens
              = (first_occurrences (joined <$> initial_runs tokens),
                 first_occurrences
                   (Py.upper <$> filter (λ t, is_initial t = true) tokens))).
  { unfold extract_initials.
    pose proof (initials_loop tokens [] [] []) as H.
    destruct (fold_left initials_step tokens ([], [], []))
      as [[ni_joined ni_individual] buffer].
    unfold close_buffer in H.
    pose proof (f_equal fst H) as H1. pose proof (f_equal snd H) as H2.
    cbn [fst snd] in H1, H2. rewrite H1, H2. cbn [app].
    rewrite !remove_duplicates_spec, runs_after_nil.
    by rewrite <- list_fmap_compose. }
  split; [exact E|]. rewrite E. split.
  - intros before run after -> Hne Hall Hbefore Hafter. simpl.
    rewrite first_occurrences_elem, list_elem_of_fmap. exists run.
    split; [done|].
    rewrite initial_runs_app, initial_runs_front by done.
    rewrite elem_of_app, elem_of_cons. tauto.
  - intros token Hin Ht. simpl.
    rewrite first_occurrences_elem, list_elem_of_fmap. exists token.
    by rewrite list_elem_of_filter.
Qed.
End Segmenter.

(** ** The assignment solver *)

Section Solver.
Import SimilarityEngine Spec.

(** *** The sort is a stable rearrangement *)

Lemma insert_desc_perm {A} (key : A → float) (x : A) (l : list A) :
  Py.insert_desc key x l ≡ₚ x :: l.
Proof.
  induction l as [|y l IH]; simpl; [done|].
  destruct (key x <? key y)%float; [|done].
  by rewrite IH, Permutation_swap.
Qed.

Lemma sort_desc_perm {A} (key : A → float) (l : list A) :
  Py.sort_desc key l ≡ₚ l.
Proof.
  induction l as [|x l IH]; simpl; [done|].
  by rewrite insert_desc_perm, IH.
Qed.

(** *** The greedy scan *)

Lemma assignment_step_accept taken_t taken_r matches cand :
  obj_id (Candidate.t_seg cand) ∉ taken_t →
  obj_id (Candidate.r_seg cand) ∉ taken_r →
  assignment_step (taken_t, taken_r, matches) cand
  = ({[ obj_id (Candidate.t_seg cand) ]} ∪ taken_t,
     {[ obj_id (Candidate.r_seg cand) ]} ∪ taken_r,
     matches ++ [pairing cand]).
Proof.
  intros Ht Hr. unfold assignment_step.
  by rewrite !bool_decide_eq_true_2.
Qed.

Lemma assignment_step_reject taken_t taken_r matches cand :
  obj_id (Candidate.t_seg cand) ∈ taken_t
  ∨ obj_id (Candidate.r_seg cand) ∈ taken_r →
  assignment_step (taken_t, taken_r, matches) cand
  = (taken_t, taken_r, matches).
Proof.
  intros H. unfold assignment_step.
  destruct H as [H|H].
  - by rewrite (bool_decide_eq_false_2 (_ ∉ taken_t)) by tauto.
  - rewrite (bool_decide_eq_false_2 (_ ∉ taken_r)) by tauto.
    by rewrite andb_false_r.
Qed.

(** The two ways a turn of the scan can go. *)
Lemma assignment_step_cases taken_t taken_r matches cand :
  ((obj_id (Candidate.t_seg cand) ∉ taken_t)
   ∧ (obj_id (Candidate.r_seg cand) ∉ taken_r)
   ∧ assignment_step (taken_t, taken_r, matches) cand
     = ({[ obj_id (Candidate.t_seg cand) ]} ∪ taken_t,
        {[ obj_id (Candidate.r_seg cand) ]} ∪ taken_r,
        matches ++ [pairing cand]))
  ∨ ((obj_id (Candidate.t_seg cand) ∈ taken_t
      ∨ obj_id (Candidate.r_seg cand) ∈ taken_r)
     ∧ assignment_step (taken_t, taken_r, matches) cand
       = (taken_t, taken_r, matches)).
Proof.
  destruct (decide (obj_id (Candidate.t_seg cand) ∈ taken_t)) as [Ht|Ht];
    [right; split; [tauto|apply assignment_step_reject; tauto]|].
  destruct (decide (obj_id (Candidate.r_seg cand) ∈ taken_r)) as [Hr|Hr];
    [right; split; [tauto|apply assignment_step_reject; tauto]|].
  left. split; [done|]. split; [done|]. by apply assignment_step_accept.
Qed.

Lemma scan_inv_step st cand :
  scan_inv st → scan_inv (assignment_step st cand).
Proof.
  destruct st as [[taken_t taken_r] matches].
  intros (HT & HR & NT & NR).
  destruct (assignment_step_cases taken_t taken_r matches cand)
    as [(Ht & Hr & ->)|(_ & ->)]; [|done].
  unfold scan_inv. rewrite !fmap_app. simpl. repeat split.
  - rewrite elem_of_union, elem_of_singleton, elem_of_app, list_elem_of_singleton, HT.
    unfold target_id at 2. simpl. tauto.
  - rewrite elem_of_union, elem_of_singleton, elem_of_app, list_elem_of_singleton, HT.
    unfold target_id at 3. simpl. tauto.
  - rewrite elem_of_union, elem_of_singleton, elem_of_app, list_elem_of_singleton, HR.
    unfold reference_id at 2. simpl. tauto.
  - rewrite elem_of_union, elem_of_singleton, elem_of_app, list_elem_of_singleton, HR.
    unfold reference_id at 3. simpl. tauto.
  - apply NoDup_app. split; [done|]. split; [|apply NoDup_singleton].
    intros i Hi ->%list_elem_of_singleton. apply Ht, HT, Hi.
  - apply NoDup_app. split; [done|]. split; [|apply NoDup_singleton].
    intros i Hi ->%list_elem_of_singleton. apply Hr, HR, Hi.
Qed.

Lemma scan_inv_loop (cands : list Candidate.t) st :
  scan_inv st → scan_inv (fold_left assignment_step cands st).
Proof.
  revert st. induction cands as [|cand cands IH]; intros st Hst; [done|].
  simpl. by apply IH, scan_inv_step.
Qed.

(** The scan only adds pairings, and only of the candidates it reads. *)
Lemma scan_matches (cands : list Candidate.t) st m :
  m ∈ (fold_left assignment_step cands st).2 →
  m ∈ st.2 ∨ ∃ cand, cand ∈ cands ∧ m = pairing cand.
Proof.
  revert st. induction cands as [|cand cands IH]; intros st Hm; [by left|].
  simpl in Hm. apply IH in Hm as [Hm|(c & Hc & ->)].
  - destruct st as [[taken_t taken_r] matches].
    destruct (assignment_step_cases taken_t taken_r matches cand)
      as [(_ & _ & E)|(_ & E)]; rewrite E in Hm; simpl in Hm.
    + apply elem_of_app in Hm as [Hm | ->%list_elem_of_singleton]; [by left|].
      right. exists cand. split; [left|done].
    + by left.
  - right. exists c. split; [by right|done].
Qed.

(** Instances, once taken, stay taken. *)
Lemma scan_taken_mono (cands : list Candidate.t) st i :
  (i ∈ (st.1).1 → i ∈ ((fold_left assignment_step cands st).1).1)
  ∧ (i ∈ (st.1).2 → i ∈ ((fold_left assignment_step cands st).1).2).
Proof.
  revert st. induction cands as [|cand cands IH]; intros st; [done|].
  simpl. destruct (IH (assignment_step st cand)) as [IH1 IH2].
  destruct st as [[taken_t taken_r] matches].
  destruct (assignment_step_cases taken_t taken_r matches cand)
    as [(_ & _ & E)|(_ & E)]; rewrite E in *; simpl in *;
    split; intros Hi; try (by apply IH1); try (by apply IH2).
  - apply IH1, elem_of_union. by right.
  - apply IH2, elem_of_union. by right.
Qed.

(** After the scan every candidate it read has an instance taken. *)
Lemma scan_blocks (cands : list Candidate.t) st cand :
  cand ∈ cands →
  obj_id (Candidate.t_seg cand) ∈ ((fold_left assignment_step cands st).1).1
  ∨ obj_id (Candidate.r_seg cand) ∈ ((fold_left assignment_step cands st).1).2.
Proof.
  revert st. induction cands as [|c cands IH]; intros st Hin.
  - by apply elem_of_nil in Hin.
  - apply elem_of_cons in Hin as [->|Hin]; [|by apply IH].
    simpl.
    destruct (scan_taken_mono cands (assignment_step st c)
                (obj_id (Candidate.t_seg c))) as [M1 _].
    destruct (scan_taken_mono cands (assignment_step st c)
                (obj_id (Candidate.r_seg c))) as [_ M2].
    destruct st as [[taken_t taken_r] matches].
    destruct (assignment_step_cases taken_t taken_r matches c)
      as [(_ & _ & E)|([H|H] & E)]; rewrite E in *; simpl in *.
    + left. apply M1, elem_of_union. left. by apply elem_of_singleton.
    + left. by apply M1.
    + right. by apply M2.
Qed.

Lemma solve_greedy_assignment_scan (candidates : list Candidate.t) :
  solve_greedy_assignment candidates
  = (fold_left assignment_step
       (Py.sort_desc Candidate.score candidates) (∅, ∅, [])).2.
Proof.
  unfold solve_greedy_assignment.
  by destruct (fold_left _ _ _) as [[? ?] ?].
Qed.

(** *** The scan on candidates that are blocked *)

Lemma scan_blocked (cands : list Candidate.t) taken_t taken_r matches :
  Forall (blocked taken_t taken_r) cands →
  fold_left assignment_step cands (taken_t, taken_r, matches)
  = (taken_t, taken_r, matches).
Proof.
  induction 1 as [|cand cands Hc Hcs IH]; [done|].
  cbn [fold_left]. by rewrite assignment_step_reject.
Qed.

(** Among blocked candidates, the one free candidate is accepted wherever
    it stands. *)
Lemma scan_one_free (cands rest : list Candidate.t) (cand : Candidate.t)
    taken_t taken_r matches :
  cands ≡ₚ cand :: rest →
  Forall (blocked taken_t taken_r) rest →
  obj_id (Candidate.t_seg cand) ∉ taken_t →
  obj_id (Candidate.r_seg cand) ∉ taken_r →
  fold_left assignment_step cands (taken_t, taken_r, matches)
  = ({[ obj_id (Candidate.t_seg cand) ]} ∪ taken_t,
     {[ obj_id (Candidate.r_seg cand) ]} ∪ taken_r,
     matches ++ [pairing cand]).
Proof.
  intros Hperm Hrest Ht Hr.
  assert (Hin : cand ∈ cands) by (rewrite Hperm; left).
  apply list_elem_of_split in Hin as (before & after & ->).
  rewrite <- Permutation_middle in Hperm.
  apply Permutation_cons_inv in Hperm. rewrite <- Hperm in Hrest.
  apply Forall_app in Hrest as [Hbefore Hafter].
  rewrite fold_left_app. cbn [fold_left].
  rewrite scan_blocked, assignment_step_accept by done.
  apply scan_blocked. eapply Forall_impl; [exact Hafter|].
  intros c [H|H]; [left|right]; apply elem_of_union; by right.
Qed.

(** An item whose key no other item exceeds stays in front. *)
Lemma sort_desc_front {A} (key : A → float) (x : A) (l : list A) :
  Forall (λ y, (key x <? key y)%float = false) l →
  Py.sort_desc key (x :: l) = x :: Py.sort_desc key l.
Proof.
  intros Hl. simpl.
  assert (Hs : Forall (λ y, (key x <? key y)%float = false) (Py.sort_desc key l))
    by (by rewrite sort_desc_perm).
  destruct (Py.sort_desc key l) as [|y s]; [done|]. simpl.
  by apply Forall_cons in Hs as [-> _].
Qed.

(** The solver on a best candidate, candidates that clash with it, and one
    candidate that does not. *)
Lemma solve_best_and_free (best free : Candidate.t) (clashing : list Candidate.t) :
  Forall (λ c, (Candidate.score best <? Candidate.score c)%float = false)
         (free :: clashing) →
  Forall (blocked {[ obj_id (Candidate.t_seg best) ]}
                  {[ obj_id (Candidate.r_seg best) ]}) clashing →
  obj_id (Candidate.t_seg free) ≠ obj_id (Candidate.t_seg best) →
  obj_id (Candidate.r_seg free) ≠ obj_id (Candidate.r_seg best) →
  ∀ cands, cands ≡ₚ free :: clashing →
  solve_greedy_assignment (best :: cands) = [pairing best; pairing free].
Proof.
  intros Hscores Hclash Ht Hr cands Hperm.
  rewrite solve_greedy_assignment_scan, sort_desc_front
    by (by rewrite Hperm).
  cbn [fold_left].
  rewrite assignment_step_accept by apply not_elem_of_empty.
  rewrite (scan_one_free _ clashing free).
  - done.
  - by rewrite sort_desc_perm.
  - eapply Forall_impl; [exact Hclash|].
    intros c [H|H]; [left|right]; apply elem_of_union; by left.
  - rewrite elem_of_union, elem_of_singleton. intros [H|H]; [done|].
    by apply not_elem_of_empty in H.
  - rewrite elem_of_union, elem_of_singleton. intros [H|H]; [done|].
    by apply not_elem_of_empty in H.
Qed.

(** The facts about the solver that the orchestrator relies on. *)
Lemma greedy_assignment_facts (candidates : list Candidate.t) :
  let matches := solve_greedy_assignment candidates in
  (∀ m, m ∈ matches → ∃ cand, cand ∈ candidates ∧ m = pairing cand)
  ∧ NoDup (target_id <$> matches)
  ∧ NoDup (reference_id <$> matches)
  ∧ (∀ cand, cand ∈ candidates →
       ∃ m, m ∈ matches
            ∧ (target_id m = obj_id (Candidate.t_seg cand)
               ∨ reference_id m = obj_id (Candidate.r_seg cand))).
Proof.
  intros matches. subst matches. rewrite solve_greedy_assignment_scan.
  set (sorted := Py.sort_desc Candidate.score candidates).
  assert (Hperm : sorted ≡ₚ candidates) by apply sort_desc_perm.
  pose proof (scan_inv_loop sorted (∅, ∅, [])) as Hinv.
  destruct (fold_left assignment_step sorted (∅, ∅, []))
    as [[taken_t taken_r] matches] eqn:Hscan.
  destruct Hinv as (HT & HR & NT & NR).
  { repeat split; try apply NoDup_nil_2;
      intros H; simpl in H; by (apply elem_of_nil in H || apply not_elem_of_empty in H). }
  simpl. split; [|split; [done|split; [done|]]].
  - intros m Hm.
    destruct (scan_matches sorted (∅, ∅, []) m) as [H|(c & Hc & ->)].
    + by rewrite Hscan.
    + by apply elem_of_nil in H.
    + exists c. by rewrite <- Hperm.
  - intros cand Hc. rewrite <- Hperm in Hc.
    pose proof (scan_blocks sorted (∅, ∅, []) cand Hc) as Hb.
    rewrite Hscan in Hb. simpl in Hb.
    destruct Hb as [Hb|Hb].
    + apply HT, list_elem_of_fmap in Hb as (m & E & Hm). eauto.
    + apply HR, list_elem_of_fmap in Hb as (m & E & Hm). eauto.
Qed.

(** C2. The solver returns pairings of candidates it was given, and no
    target instance and no reference instance (by object identity) is in
    more than one returned pairing.  Text and codes play no part: a
    candidate is left out only when one of its two instances is already in
    a returned pairing. *)
Theorem solve_greedy_assignment_exclusive (candidates : list Candidate.t) :
  let matches := solve_greedy_assignment candidates in
  (∀ m, m ∈ matches → ∃ cand, cand ∈ candidates ∧ m = pairing cand)
  ∧ NoDup (target_id <$> matches)
  ∧ NoDup (reference_id <$> matches)
  ∧ (∀ cand, cand ∈ candidates →
       ∃ m, m ∈ matches
            ∧ (target_id m = obj_id (Candidate.t_seg cand)
               ∨ reference_id m = obj_id (Candidate.r_seg cand))).
Proof. apply greedy_assignment_facts. Qed.
End Solver.

(** ** The pipeline stages as list operations *)

Section Pipeline.
Import Spec.
Variable doublemetaphone : string → string * string.
Variable jaro_winkler : string → string → float.

(** A loop that only appends to its accumulator is a bind. *)
Lemma fold_left_append {A B} (step : list B → A → list B) (f : A → list B) :
  (∀ acc x, step acc x = acc ++ f x) →
  ∀ l acc, fold_left step l acc = acc ++ (l ≫= f).
Proof.
  intros Hstep l. induction l as [|x l IH]; intros acc; simpl.
  - by rewrite app_nil_r.
  - by rewrite IH, Hstep, <- app_assoc.
Qed.

Lemma bind_nil {A B} (f : A → list B) : [] ≫= f = [].
Proof. done. Qed.

Lemma length_enumerate_from (i : nat) (segments : list string) :
  length (PhoneticEncoder.enumerate_from i segments) = length segments.
Proof.
  revert i. induction segments as [|s l IH]; intros i; simpl; [done|].
  by rewrite IH.
Qed.

Lemma length_bind_singleton {A B} (f : A → B) (l : list A) :
  length (l ≫= λ x, [f x]) = length l.
Proof.
  induction l as [|x l IH]; [done|].
  rewrite bind_cons, length_app, IH. done.
Qed.

(** The encoder yields one segment per string. *)
Lemma length_encode_segments (segments : list string) :
  length (PhoneticEncoder.encode_segments doublemetaphone segments)
  = length segments.
Proof.
  unfold PhoneticEncoder.encode_segments.
  rewrite (fold_left_append _
    (λ it : nat * string,
       [{| original_text := it.2; index := it.1;
           primary_code := (doublemetaphone it.2).1;
           secondary_code :=
             if Py.truthy (doublemetaphone it.2).2
             then Some (doublemetaphone it.2).2 else None |}])).
  - simpl. by rewrite length_bind_singleton, length_enumerate_from.
  - by intros acc [i token].
Qed.

Lemma label_segments_ids (next_id : nat) (lbl : string) (traced : list TracedSegment) :
  obj_id <$> PhoneticMatcher.label_segments next_id lbl traced
  = seq next_id (length traced).
Proof.
  revert next_id. induction traced as [|s l IH]; intros next_id; simpl; [done|].
  by rewrite IH.
Qed.

(** The units of a name are new objects with consecutive identities. *)
Lemma units_ids (next_id : nat) (data : NameProfile) :
  obj_id <$> PhoneticMatcher.units doublemetaphone next_id data
  = seq next_id (length (NS data) + length (NI data).1).
Proof.
  unfold PhoneticMatcher.units.
  rewrite fmap_app, !label_segments_ids, !length_encode_segments.
  by rewrite seq_app.
Qed.

Lemma length_units (next_id : nat) (data : NameProfile) :
  length (PhoneticMatcher.units doublemetaphone next_id data)
  = length (NS data) + length (NI data).1.
Proof.
  rewrite <- (length_fmap obj_id), units_ids. apply length_seq.
Qed.

(** The candidate loop is the product of the two pools, pair by pair. *)
Lemma generate_candidates_bind (target_name reference_name : string)
    (t_units r_units : list LabeledSegment) :
  PhoneticMatcher.generate_candidates jaro_winkler target_name reference_name
    t_units r_units
  = t_units ≫= λ t, r_units ≫= λ r,
      pair_candidates jaro_winkler target_name reference_name t r.
Proof.
  unfold PhoneticMatcher.generate_candidates.
  rewrite (fold_left_append _
    (λ t, r_units ≫= λ r,
       pair_candidates jaro_winkler target_name reference_name t r)); [done|].
  intros acc t.
  apply (fold_left_append _
    (λ r, pair_candidates jaro_winkler target_name reference_name t r)).
  intros acc' r. unfold pair_candidates.
  destruct (SimilarityEngine.calculate_pair_score _ _ _ _ _) as [score mtype].
  simpl. destruct (0 <? score)%float; [done|by rewrite app_nil_r].
Qed.

(** Every candidate pairs a target unit with a reference unit and has a
    positive score. *)
Lemma generate_candidates_elem (target_name reference_name : string)
    (t_units r_units : list LabeledSegment) (cand : Candidate.t) :
  cand ∈ PhoneticMatcher.generate_candidates jaro_winkler
           target_name reference_name t_units r_units →
  Candidate.t_seg cand ∈ t_units ∧ Candidate.r_seg cand ∈ r_units
  ∧ (0 <? Candidate.score cand)%float = true.
Proof.
  rewrite generate_candidates_bind.
  intros (t & Hc & Ht)%list_elem_of_bind.
  apply list_elem_of_bind in Hc as (r & Hc & Hr).
  unfold pair_candidates in Hc.
  destruct (0 <? _)%float eqn:Hpos; [|by apply elem_of_nil in Hc].
  by apply list_elem_of_singleton in Hc as ->.
Qed.
End Pipeline.

(** ** The orchestrator *)

Section Orchestrator.
Import Spec FloatFacts.
Variable doublemetaphone : string → string * string.
Variable jaro_winkler : string → string → float.

(** *** Sorting numbers *)

Lemma insert_desc_sorted (x : float) (l : list float) :
  number x → Forall number l →
  Sorted (λ a b, (b <=? a)%float = true) l →
  Sorted (λ a b, (b <=? a)%float = true) (Py.insert_desc (λ s, s) x l).
Proof.
  intros Hx Hl Hs. induction Hs as [|y l Hs IH Hhd]; simpl.
  - by repeat constructor.
  - apply Forall_cons in Hl as [Hy Hl].
    destruct (x <? y)%float eqn:Hlt.
    + constructor; [by apply IH|].
      destruct l as [|z l]; simpl.
      * constructor. by apply ltb_leb.
      * destruct (x <? z)%float; constructor; [by inversion Hhd|by apply ltb_leb].
    + constructor; [by constructor|]. constructor. by apply not_ltb_leb.
Qed.

Lemma insert_desc_Forall {A} (P : A → Prop) key (x : A) (l : list A) :
  P x → Forall P l → Forall P (Py.insert_desc key x l).
Proof. intros Hx Hl. rewrite insert_desc_perm. by constructor. Qed.

(** Sorting numbers in reverse yields a decreasing list. *)
Lemma sort_desc_descending (l : list float) :
  Forall number l → descending (Py.sort_desc (λ s, s) l).
Proof.
  intros Hl. apply Sorted_StronglySorted.
  { intros a b c Hab Hbc. by eapply leb_trans. }
  induction Hl as [|x l Hx Hl IH]; simpl; [constructor|].
  apply insert_desc_sorted; [done| |done].
  by rewrite sort_desc_perm.
Qed.

(** *** The fields of the report *)

Lemma match_N (target_name reference_name : string) :
  N (PhoneticMatcher.match_ doublemetaphone jaro_winkler
       target_name reference_name)
  = unit_count target_name.
Proof. unfold PhoneticMatcher.match_. simpl. apply length_units. Qed.

Lemma match_Matches (target_name reference_name : string) :
  Matches (PhoneticMatcher.match_ doublemetaphone jaro_winkler
             target_name reference_name)
  = SimilarityEngine.solve_greedy_assignment
      (PhoneticMatcher.generate_candidates jaro_winkler
         target_name reference_name
         (PhoneticMatcher.units doublemetaphone 0
            (NameProcessor.process_name target_name))
         (PhoneticMatcher.units doublemetaphone (unit_count target_name)
            (NameProcessor.process_name reference_name))).
Proof. unfold PhoneticMatcher.match_. simpl. by rewrite length_units. Qed.

Lemma match_AllScores (target_name reference_name : string) :
  let r := PhoneticMatcher.match_ doublemetaphone jaro_winkler
             target_name reference_name in
  AllScores r
  = take (N r)
      (Py.sort_desc (λ s, s)
         ((λ s, s * 100)%float <$> (MatchResult.score <$> Matches r))).
Proof.
  intros r. subst r. unfold PhoneticMatcher.match_. simpl.
  by rewrite <- list_fmap_compose.
Qed.

Lemma match_F1 (target_name reference_name : string) :
  let r := PhoneticMatcher.match_ doublemetaphone jaro_winkler
             target_name reference_name in
  F1 r
  = Py.round
      (if (0 <? N r)%nat
       then (Py.sum (AllScores r) / Py.float_of_nat (N r))%float
       else 0%float) 2.
Proof. done. Qed.

(** C1. The final score is the sum of the top [N] accepted scores (scaled by
    100, in decreasing order) divided by [N], where [N] is the number of
    target units (deduplicated name segments plus groups of joined
    initials); it is 0 when [N = 0]; the returned value is rounded to two
    decimal places. *)
Theorem match_aggregate (target_name reference_name : string) :
  let r := PhoneticMatcher.match_ doublemetaphone jaro_winkler
             target_name reference_name in
  N r = unit_count target_name
  ∧ F1 r = Py.round
             (aggregate (unit_count target_name)
                (MatchResult.score <$> Matches r)) 2
  ∧ (unit_count target_name = 0 → F1 r = 0%float).
Proof.
  intros r.
  assert (HF : F1 r = Py.round
                        (aggregate (unit_count target_name)
                           (MatchResult.score <$> Matches r)) 2).
  { subst r. rewrite match_F1, match_AllScores. cbv zeta.
    rewrite match_N. unfold aggregate.
    by destruct (unit_count target_name). }
  split; [apply match_N|]. split; [exact HF|].
  intros H0. rewrite HF, H0. reflexivity.
Qed.

(** *** Nothing is truncated *)

(** Every returned pairing joins a target unit with a reference unit at a
    positive score. *)
Lemma match_Matches_elem (target_name reference_name : string) m :
  m ∈ Matches (PhoneticMatcher.match_ doublemetaphone jaro_winkler
                 target_name reference_name) →
  MatchResult.target_segment m
    ∈ PhoneticMatcher.units doublemetaphone 0
        (NameProcessor.process_name target_name)
  ∧ (0 <? MatchResult.score m)%float = true.
Proof.
  rewrite match_Matches. intros Hm.
  apply greedy_assignment_facts in Hm as (cand & Hc & ->).
  apply generate_candidates_elem in Hc as (Ht & _ & Hs). done.
Qed.

(** C10. Each accepted pairing consumes a target unit of its own, so there
    are at most [N] of them; the truncation to the top [N] scores therefore
    drops nothing, and [AllScores] holds the scaled score of every accepted
    pairing, in decreasing order. *)
Theorem match_keeps_all_scores (target_name reference_name : string) :
  let r := PhoneticMatcher.match_ doublemetaphone jaro_winkler
             target_name reference_name in
  let scaled : list float :=
    (λ m, MatchResult.score m * 100)%float <$> Matches r in
  NoDup (target_id <$> Matches r)
  ∧ (∀ m, m ∈ Matches r →
       MatchResult.target_segment m
         ∈ PhoneticMatcher.units doublemetaphone 0
             (NameProcessor.process_name target_name))
  ∧ (length (Matches r) ≤ N r)%nat
  ∧ AllScores r = Py.sort_desc (λ s, s) scaled
  ∧ AllScores r ≡ₚ scaled
  ∧ descending (AllScores r).
Proof.
  intros r scaled.
  assert (Hnd : NoDup (target_id <$> Matches r)).
  { subst r. rewrite match_Matches. apply greedy_assignment_facts. }
  assert (Hunits : ∀ m, m ∈ Matches r →
            MatchResult.target_segment m
              ∈ PhoneticMatcher.units doublemetaphone 0
                  (NameProcessor.process_name target_name)).
  { intros m Hm. by apply match_Matches_elem in Hm as [? _]. }
  assert (Hlen : (length (Matches r) ≤ N r)%nat).
  { rewrite <- (length_fmap target_id). subst r. rewrite match_N.
    unfold unit_count. cbv zeta.
    rewrite <- (length_units doublemetaphone 0), <- (length_fmap obj_id).
    apply submseteq_length, NoDup_submseteq; [done|].
    intros i (m & -> & Hm)%list_elem_of_fmap.
    apply list_elem_of_fmap. exists (MatchResult.target_segment m).
    split; [done|]. by apply Hunits. }
  assert (Hall : AllScores r = Py.sort_desc (λ s, s) scaled).
  { subst scaled. pose proof (match_AllScores target_name reference_name) as E.
    cbv zeta in E. fold r in E. rewrite E, <- list_fmap_compose.
    apply take_ge.
    by rewrite (Permutation_length (sort_desc_perm _ _)), length_fmap. }
  split; [done|]. split; [done|]. split; [done|]. split; [done|].
  rewrite Hall. split; [apply sort_desc_perm|].
  apply sort_desc_descending, Forall_forall.
  intros x (m & -> & Hm)%list_elem_of_fmap.
  apply scaled_number. by apply match_Matches_elem in Hm as [_ ?].
Qed.
End Orchestrator.

(** ** The pair scorer *)

Section Scorer.
Import SimilarityEngine Spec FloatFacts.
Variable doublemetaphone : string → string * string.
Variable jaro_winkler : string → string → float.

(** *** Which combinations are compared *)

Lemma truthy_opt_usable (c : option string) : Py.truthy_opt c = usable c.
Proof. by destruct c as [[|a s]|]. Qed.

Lemma combination_step_usable (st : float * string)
    (comb : option string * option string * string) :
  combination_step jaro_winkler st comb
  = if both usable comb then compare_codes jaro_winkler st comb else st.
Proof.
  destruct st as [best lbl], comb as [[c1 c2] label].
  unfold combination_step, both, compare_codes. simpl.
  rewrite !truthy_opt_usable.
  destruct (usable c1 && usable c2); [|done].
  by destruct (best <? _)%float.
Qed.

Lemma combination_loop (combs : list (option string * option string * string))
    (st : float * string) :
  fold_left (combination_step jaro_winkler) combs st
  = fold_left (compare_codes jaro_winkler)
      (filter (λ comb, both usable comb = true) combs) st.
Proof.
  revert st. induction combs as [|comb combs IH]; intros st; [done|].
  cbn [fold_left]. rewrite IH, combination_step_usable, filter_cons.
  destruct (both usable comb); by case_decide.
Qed.



(** *** The tie-break of a perfect code match *)

Lemma sub_ws_single_spaced (in_run : bool) (s : string) :
  single_spaced (Py.sub_ws_from in_run s).
Proof.
  revert in_run. induction s as [|c s IH]; intros in_run; [done|]. simpl.
  destruct (Py.is_space c) eqn:Hc; [destruct in_run|]; simpl; try done.
  split; [congruence|done].
Qed.

Lemma lstrip_single_spaced (s : string) :
  single_spaced s → single_spaced (Py.lstrip s).
Proof.
  induction s as [|c s IH]; [done|]. simpl. intros [Hc Hs].
  destruct (Py.is_space c) eqn:E; [by apply IH|].
  simpl. split; [by rewrite E|done].
Qed.

Lemma rstrip_single_spaced (s : string) :
  single_spaced s → single_spaced (Py.rstrip s).
Proof.
  induction s as [|c s IH]; [done|]. simpl. intros [Hc Hs].
  specialize (IH Hs).
  destruct (Py.rstrip s); [|done].
  destruct (Py.is_space c) eqn:E; [done|].
  simpl. split; [by rewrite E|done].
Qed.

(** In single-spaced text, removing the spaces removes all white space. *)
Lemma remove_spaces_single_spaced (s : string) :
  single_spaced s →
  Py.remove_spaces s = Py.str_filter (λ c, negb (Py.is_space c)) s.
Proof.
  unfold Py.remove_spaces.
  induction s as [|c s IH]; [done|]. simpl. intros [Hc Hs].
  rewrite IH by done.
  destruct (Py.is_space c) eqn:Hsp; simpl.
  - by rewrite (Hc eq_refl).
  - destruct (Ascii.eqb_spec c " ") as [->|_]; [done|done].
Qed.

Lemma nonspace_sub_ws (in_run : bool) (s : string) :
  Py.str_filter (λ c, negb (Py.is_space c)) (Py.sub_ws_from in_run s)
  = Py.str_filter (λ c, negb (Py.is_space c)) s.
Proof.
  revert in_run. induction s as [|c s IH]; intros in_run; [done|]. simpl.
  destruct (Py.is_space c) eqn:Hc; [destruct in_run|]; simpl;
    rewrite ?Hc; simpl; by rewrite IH.
Qed.

Lemma nonspace_lstrip (s : string) :
  Py.str_filter (λ c, negb (Py.is_space c)) (Py.lstrip s)
  = Py.str_filter (λ c, negb (Py.is_space c)) s.
Proof.
  induction s as [|c s IH]; [done|]. simpl.
  destruct (Py.is_space c) eqn:Hc; simpl; [done|by rewrite Hc].
Qed.

Lemma nonspace_rstrip (s : string) :
  Py.str_filter (λ c, negb (Py.is_space c)) (Py.rstrip s)
  = Py.str_filter (λ c, negb (Py.is_space c)) s.
Proof.
  induction s as [|c s IH]; [done|]. simpl.
  destruct (Py.rstrip s) as [|c' r]; simpl in *.
  - rewrite <- IH. by destruct (Py.is_space c) eqn:Hc; simpl; rewrite ?Hc.
  - by rewrite IH.
Qed.

(** The scorer's normalization of a full name. *)
Lemma normalized_full_name (name : string) :
  Py.remove_spaces (NameProcessor.normalize_text name) = squeezed name.
Proof.
  unfold NameProcessor.normalize_text, Py.strip, Py.sub_ws, squeezed.
  rewrite remove_spaces_single_spaced
    by apply rstrip_single_spaced, lstrip_single_spaced, sub_ws_single_spaced.
  by rewrite nonspace_rstrip, nonspace_lstrip, nonspace_sub_ws.
Qed.

Lemma eqb_1 (x : float) : (x =? 1)%float = true → x = 1%float.
Proof. by apply (eqb_finite_eq _ _ false 4503599627370496 (-52)). Qed.

(** The score of a perfect code match. *)
Lemma perfect_match_score (t_seg r_seg : TracedSegment)
    (t_full_name r_full_name : option string) (best : float) (lbl : string) :
  best_combination jaro_winkler t_seg r_seg = (best, lbl) →
  (best =? 1)%float = true →
  calculate_pair_score jaro_winkler t_seg r_seg t_full_name r_full_name
  = let score :=
      blended (literal_similarity jaro_winkler usable
                 t_seg r_seg t_full_name r_full_name) in
    (score, weighted_label lbl score).
Proof.
  intros Hbest H1. unfold calculate_pair_score. rewrite Hbest, H1.
  apply eqb_1 in H1 as ->.
  unfold literal_similarity, blended, weighted_label.
  by rewrite !truthy_opt_usable, !normalized_full_name.
Qed.

(** The score of any other match is the best code similarity. *)
Lemma imperfect_match_score (t_seg r_seg : TracedSegment)
    (t_full_name r_full_name : option string) (best : float) (lbl : string) :
  best_combination jaro_winkler t_seg r_seg = (best, lbl) →
  (best =? 1)%float = false →
  calculate_pair_score jaro_winkler t_seg r_seg t_full_name r_full_name
  = (best, lbl).
Proof.
  intros Hbest H1. unfold calculate_pair_score. by rewrite Hbest, H1.
Qed.

(** C3, as the program has it.  When the best similarity over the compared
    combinations is exactly 1.0, the scorer returns
    [1.0 * 0.85 + literal * 0.15], where [literal] compares the two
    normalized full names when both are supplied and non-empty, and the
    lower-cased texts of the two segments otherwise; the label records the
    weighted value. *)
Theorem perfect_match_blend (t_seg r_seg : TracedSegment)
    (t_full_name r_full_name : option string) (best : float) (lbl : string) :
  best_combination jaro_winkler t_seg r_seg = (best, lbl) →
  (best =? 1)%float = true →
  calculate_pair_score jaro_winkler t_seg r_seg t_full_name r_full_name
  = let score :=
      blended (literal_similarity jaro_winkler usable
                 t_seg r_seg t_full_name r_full_name) in
    (score, weighted_label lbl score).
Proof. apply perfect_match_score. Qed.
End Scorer.

Lemma perfect_match_blend_witness :
  SimilarityEngine.best_combination Sample.jaro_winkler Sample.john Sample.john
  = (1%float, "Primary-Primary")
  ∧ (1 =? 1)%float = true
  ∧ SimilarityEngine.calculate_pair_score Sample.jaro_winkler
      Sample.john Sample.john (Some "John Smith") (Some "Jon Smith")
    = (0.85%float, "Primary-Primary (Weighted: 1.0->0.8500)").
Proof.
  split; [reflexivity|]. split; [reflexivity|].
  by rewrite (perfect_match_blend Sample.jaro_winkler Sample.john Sample.john
                (Some "John Smith") (Some "Jon Smith") 1 "Primary-Primary").
Defined.


(** The claim C3 as stated, that the full names are compared whenever both
    are supplied, fails when one of them is the empty string: the scorer
    then compares the texts of the segments. *)
Lemma empty_full_name_not_compared :
  SimilarityEngine.best_combination Sample.jaro_winkler Sample.john Sample.john
  = (1%float, "Primary-Primary")
  ∧ (SimilarityEngine.calculate_pair_score Sample.jaro_winkler
       Sample.john Sample.john (Some "") (Some "John")).1
    ≠ Spec.blended
        (Spec.literal_similarity Sample.jaro_winkler Spec.present
           Sample.john Sample.john (Some "") (Some "John")).
Proof.
  split; [reflexivity|]. intros H.
  apply (f_equal (λ x, (x =? 1)%float)) in H. vm_compute in H. discriminate.
Qed.


(** ** An exact match *)

Section ExactMatch.
Import SimilarityEngine Spec FloatFacts.
Variable doublemetaphone : string → string * string.
Variable jaro_winkler : string → string → float.

(** What the proof uses of the two libraries: the primary codes of "John"
    and "Smith" are not empty, a non-empty string is similar to itself with
    score 1.0, and no similarity exceeds 1.0. *)
Hypothesis john_code : Py.truthy (doublemetaphone "John").1 = true.
Hypothesis smith_code : Py.truthy (doublemetaphone "Smith").1 = true.
Hypothesis similarity_refl :
  ∀ s, Py.truthy s = true → jaro_winkler s s = 1%float.
Hypothesis similarity_le_1 :
  ∀ a b, (1 <? jaro_winkler a b)%float = false.

(** While the best similarity is 1.0, no further combination replaces
    it. *)
Lemma compare_codes_at_1 (lbl : string) combs :
  fold_left (compare_codes jaro_winkler) combs (1%float, lbl) = (1%float, lbl).
Proof.
  induction combs as [|comb combs IH]; [done|].
  cbn [fold_left]. unfold compare_codes at 2. cbn [fst snd].
  by rewrite similarity_le_1.
Qed.

(** The best similarity never exceeds 1.0. *)
Lemma compare_codes_le_1 combs (st : float * string) :
  (1 <? st.1)%float = false →
  (1 <? (fold_left (compare_codes jaro_winkler) combs st).1)%float = false.
Proof.
  revert st. induction combs as [|comb combs IH]; intros st Hst; [done|].
  cbn [fold_left]. apply IH. unfold compare_codes.
  destruct (st.1 <? _)%float; [apply similarity_le_1|done].
Qed.

(** A segment with a non-empty primary code matches itself perfectly. *)
Lemma best_combination_same (s : TracedSegment) :
  Py.truthy (primary_code s) = true →
  best_combination jaro_winkler s s = (1%float, "Primary-Primary").
Proof.
  intros Hp. unfold best_combination. rewrite combination_loop.
  unfold combinations. rewrite filter_cons_True.
  - cbn [fold_left]. unfold compare_codes at 2. cbn [fst snd default].
    rewrite similarity_refl by done. apply compare_codes_at_1.
  - unfold both. cbn [fst snd]. rewrite <- !truthy_opt_usable.
    cbn [Py.truthy_opt]. by rewrite Hp.
Qed.

Lemma calculate_pair_score_same (s : TracedSegment) (name : string) :
  Py.truthy (primary_code s) = true →
  Py.truthy name = true → Py.truthy (squeezed name) = true →
  calculate_pair_score jaro_winkler s s (Some name) (Some name)
  = (1%float, weighted_label "Primary-Primary" 1).
Proof.
  intros Hp Hn Hsq.
  rewrite (perfect_match_score _ _ _ _ _ 1 "Primary-Primary")
    by (by apply best_combination_same || done).
  unfold literal_similarity. rewrite <- !truthy_opt_usable.
  cbn [Py.truthy_opt default]. rewrite Hn. cbn [andb].
  by rewrite similarity_refl.
Qed.

(** Between the same two full names no pair scores above 1.0. *)
Lemma calculate_pair_score_le_1 (t_seg r_seg : TracedSegment) (name : string) :
  Py.truthy name = true → Py.truthy (squeezed name) = true →
  (1 <? (calculate_pair_score jaro_winkler t_seg r_seg
           (Some name) (Some name)).1)%float = false.
Proof.
  intros Hn Hsq.
  destruct (best_combination jaro_winkler t_seg r_seg) as [best lbl] eqn:Hbest.
  destruct (best =? 1)%float eqn:H1.
  - rewrite (perfect_match_score _ _ _ _ _ best lbl) by done.
    unfold literal_similarity. rewrite <- !truthy_opt_usable.
    cbn [Py.truthy_opt default]. rewrite Hn. cbn [andb].
    by rewrite similarity_refl.
  - rewrite (imperfect_match_score _ _ _ _ _ best lbl) by done.
    pose proof (compare_codes_le_1
                  (filter (λ comb, both usable comb = true)
                     (combinations t_seg r_seg))
                  (0%float, "None") eq_refl) as H.
    unfold best_combination in Hbest.
    by rewrite combination_loop in Hbest; rewrite Hbest in H.
Qed.

Lemma pair_candidates_le_1 (name : string) (t r : LabeledSegment) :
  Py.truthy name = true → Py.truthy (squeezed name) = true →
  Forall (λ c, Candidate.t_seg c = t ∧ Candidate.r_seg c = r
               ∧ (1 <? Candidate.score c)%float = false)
         (pair_candidates jaro_winkler name name t r).
Proof.
  intros Hn Hsq. unfold pair_candidates.
  destruct (0 <? _)%float; [|constructor].
  repeat constructor. simpl. by apply calculate_pair_score_le_1.
Qed.

Lemma pair_candidates_same (name : string) (t r : LabeledSegment) :
  segment t = segment r → Py.truthy (primary_code (segment t)) = true →
  Py.truthy name = true → Py.truthy (squeezed name) = true →
  pair_candidates jaro_winkler name name t r
  = [{| Candidate.t_seg := t; Candidate.r_seg := r;
        Candidate.score := 1;
        Candidate.match_type := weighted_label "Primary-Primary" 1 |}].
Proof.
  intros E Hp Hn Hsq. unfold pair_candidates.
  by rewrite <- E, calculate_pair_score_same.
Qed.

(** C9. [match("John Smith", "John Smith")] returns the score 100.0, which
    the labeler calls "Identical Name". *)
Theorem match_john_smith :
  let r := PhoneticMatcher.match_ doublemetaphone jaro_winkler
             "John Smith" "John Smith" in
  F1 r = 100%float ∧ ScoreNormalizer.get_label (F1 r) = "Identical Name".
Proof.
  intros r.
  assert (Hm : Matches r =
    [ pairing
        {| Candidate.t_seg :=
             {| obj_id := 0;
                segment := {| original_text := "John"; index := 0;
                  primary_code := (doublemetaphone "John").1;
                  secondary_code :=
                    if Py.truthy (doublemetaphone "John").2
                    then Some (doublemetaphone "John").2 else None |};
                label := "[NS]" |};
           Candidate.r_seg :=
             {| obj_id := 2;
                segment := {| original_text := "John"; index := 0;
                  primary_code := (doublemetaphone "John").1;
                  secondary_code :=
                    if Py.truthy (doublemetaphone "John").2
                    then Some (doublemetaphone "John").2 else None |};
                label := "[NS]" |};
           Candidate.score := 1;
           Candidate.match_type := weighted_label "Primary-Primary" 1 |};
      pairing
        {| Candidate.t_seg :=
             {| obj_id := 1;
                segment := {| original_text := "Smith"; index := 1;
                  primary_code := (doublemetaphone "Smith").1;
                  secondary_code :=
                    if Py.truthy (doublemetaphone "Smith").2
                    then Some (doublemetaphone "Smith").2 else None |};
                label := "[NS]" |};
           Candidate.r_seg :=
             {| obj_id := 3;
                segment := {| original_text := "Smith"; index := 1;
                  primary_code := (doublemetaphone "Smith").1;
                  secondary_code :=
                    if Py.truthy (doublemetaphone "Smith").2
                    then Some (doublemetaphone "Smith").2 else None |};
                label := "[NS]" |};
           Candidate.score := 1;
           Candidate.match_type := weighted_label "Primary-Primary" 1 |} ]).
  { subst r. rewrite match_Matches, generate_candidates_bind.
    change (NameProcessor.process_name "John Smith")
      with {| NS := ["John"; "Smith"]; NI := ([], []) |}.
    change (unit_count "John Smith") with 2.
    unfold PhoneticMatcher.units, PhoneticEncoder.encode_segments.
    cbn [NS NI fst PhoneticEncoder.enumerate_from fold_left app length
         PhoneticMatcher.label_segments Nat.add].
    rewrite !bind_cons, !bind_nil, !app_nil_r.
    set (t_john := {| obj_id := 0; segment := _; label := _ |}).
    set (t_smith := {| obj_id := 1; segment := _; label := _ |}).
    set (r_john := {| obj_id := 2; segment := _; label := _ |}).
    set (r_smith := {| obj_id := 3; segment := _; label := _ |}).
    rewrite (pair_candidates_same "John Smith" t_john r_john
               eq_refl john_code eq_refl eq_refl).
    rewrite (pair_candidates_same "John Smith" t_smith r_smith
               eq_refl smith_code eq_refl eq_refl).
    cbn [app].
    pose proof (pair_candidates_le_1 "John Smith") as Hle.
    match goal with
    | |- solve_greedy_assignment
           (?best :: pair_candidates _ _ _ ?t1 ?r1
              ++ pair_candidates _ _ _ ?t2 ?r2 ++ [?free]) = _ =>
        specialize (Hle t1 r1 eq_refl eq_refl) as H1;
        specialize (Hle t2 r2 eq_refl eq_refl) as H2;
        apply (solve_best_and_free best free
                 (pair_candidates jaro_winkler "John Smith" "John Smith" t1 r1
                  ++ pair_candidates jaro_winkler "John Smith" "John Smith" t2 r2))
    end.
    - constructor; [done|]. apply Forall_app. split.
      + eapply Forall_impl; [exact H1|]. by intros c (_ & _ & ?).
      + eapply Forall_impl; [exact H2|]. by intros c (_ & _ & ?).
    - apply Forall_app. split.
      + eapply Forall_impl; [exact H1|]. intros c (E & _ & _).
        left. rewrite E. by apply elem_of_singleton.
      + eapply Forall_impl; [exact H2|]. intros c (_ & E & _).
        right. rewrite E. by apply elem_of_singleton.
    - done.
    - done.
    - rewrite app_assoc. symmetry. apply Permutation_cons_append. }
  assert (HF : F1 r = 100%float).
  { subst r. rewrite match_F1. cbv zeta.
    pose proof (match_AllScores doublemetaphone jaro_winkler
                  "John Smith" "John Smith") as HA.
    cbv zeta in HA. rewrite HA, Hm, match_N. reflexivity. }
  split; [exact HF|]. by rewrite HF.
Qed.
End ExactMatch.

Lemma sample_similarity_refl (s : string) :
  Py.truthy s = true → Sample.jaro_winkler s s = 1%float.
Proof. intros _. unfold Sample.jaro_winkler. by rewrite String.eqb_refl. Qed.

Lemma sample_similarity_le_1 (a b : string) :
  (1 <? Sample.jaro_winkler a b)%float = false.
Proof. unfold Sample.jaro_winkler. by destruct (String.eqb a b). Qed.

Lemma match_john_smith_witness :
  Py.truthy (Sample.doublemetaphone "John").1 = true
  ∧ Py.truthy (Sample.doublemetaphone "Smith").1 = true
  ∧ F1 (PhoneticMatcher.match_ Sample.doublemetaphone Sample.jaro_winkler
          "John Smith" "John Smith") = 100%float.
Proof.
  split; [reflexivity|]. split; [reflexivity|].
  apply (match_john_smith Sample.doublemetaphone Sample.jaro_winkler
           eq_refl eq_refl sample_similarity_refl sample_similarity_le_1).
Defined.


(** ** Normalized text and its tokens *)

Section Text.
Import NameProcessor Spec.

Lemma char_lower_idem (c : ascii) :
  Py.char_lower (Py.char_lower c) = Py.char_lower c.
Proof. destruct c as [[] [] [] [] [] [] [] []]; reflexivity. Qed.

(** Lower-casing an ASCII character neither makes nor unmakes a letter of
    [[a-zA-Z]]. *)
Lemma char_lower_ascii_alpha (c : ascii) :
  is_ascii c = true → Py.is_alpha (Py.char_lower c) = Py.is_alpha c.
Proof. destruct c as [[] [] [] [] [] [] [] []]; vm_compute; congruence. Qed.

Lemma lower_idem (s : string) : Py.lower (Py.lower s) = Py.lower s.
Proof.
  unfold Py.lower. induction s as [|c s IH]; [done|]. simpl.
  by rewrite char_lower_idem, IH.
Qed.

(** *** The shape of normalized text *)

Lemma spaced_weaken (b : bool) (s : string) : spaced b s → spaced false s.
Proof.
  destruct s as [|c s]; [done|]. simpl.
  destruct (Py.is_space c); [|done]. by intros (-> & _ & H).
Qed.

Lemma sub_ws_spaced (b : bool) (s : string) : spaced b (Py.sub_ws_from b s).
Proof.
  revert b. induction s as [|c s IH]; intros b; [done|]. simpl.
  destruct (Py.is_space c) eqn:Hc.
  - destruct b; [apply IH|]. simpl. split; [done|]. split; [done|]. apply IH.
  - simpl. rewrite Hc. apply IH.
Qed.

Lemma lstrip_spaced (b : bool) (s : string) :
  spaced b s → spaced false (Py.lstrip s).
Proof.
  revert b. induction s as [|c s IH]; intros b; [done|]. simpl.
  destruct (Py.is_space c) eqn:Hc.
  - intros (_ & _ & H). by eapply IH.
  - intros H. simpl. by rewrite Hc.
Qed.

Lemma rstrip_spaced (b : bool) (s : string) :
  spaced b s → spaced b (Py.rstrip s).
Proof.
  revert b. induction s as [|c s IH]; intros b; [done|]. simpl.
  destruct (Py.is_space c) eqn:Hc.
  - intros (-> & -> & H). specialize (IH true H).
    destruct (Py.rstrip s); [done|]. by cbn [spaced]; rewrite Hc.
  - intros H. specialize (IH false H).
    destruct (Py.rstrip s); simpl in *; by rewrite Hc.
Qed.

Lemma lstrip_no_lead (s : string) : no_lead (Py.lstrip s).
Proof.
  induction s as [|c s IH]; [done|]. simpl.
  by destruct (Py.is_space c) eqn:Hc.
Qed.

Lemma rstrip_no_lead (s : string) : no_lead s → no_lead (Py.rstrip s).
Proof.
  destruct s as [|c s]; [done|]. simpl. intros Hc.
  destruct (Py.rstrip s); by rewrite ?Hc.
Qed.

Lemma rstrip_no_trail (s : string) : no_trail (Py.rstrip s).
Proof.
  induction s as [|c s IH]; [done|]. simpl.
  destruct (Py.rstrip s) as [|d r].
  - by destruct (Py.is_space c) eqn:Hc.
  - done.
Qed.

Lemma str_all_lower (s : string) :
  str_all (λ c, Ascii.eqb (Py.char_lower c) c) (Py.lower s) = true.
Proof.
  unfold Py.lower. induction s as [|c s IH]; [done|]. simpl.
  by rewrite char_lower_idem, Ascii.eqb_refl, IH.
Qed.

Lemma str_all_sub_ws (p : ascii → bool) (b : bool) (s : string) :
  p " "%char = true → str_all p s = true →
  str_all p (Py.sub_ws_from b s) = true.
Proof.
  intros Hsp. revert b. induction s as [|c s IH]; intros b; [done|]. simpl.
  intros [Hc Hs]%andb_true_iff.
  destruct (Py.is_space c), b; simpl; rewrite ?Hsp, ?Hc; by apply IH.
Qed.

Lemma str_all_lstrip (p : ascii → bool) (s : string) :
  str_all p s = true → str_all p (Py.lstrip s) = true.
Proof.
  induction s as [|c s IH]; [done|]. simpl.
  intros [Hc Hs]%andb_true_iff.
  destruct (Py.is_space c); [by apply IH|]. simpl. by rewrite Hc, Hs.
Qed.

Lemma str_all_rstrip (p : ascii → bool) (s : string) :
  str_all p s = true → str_all p (Py.rstrip s) = true.
Proof.
  induction s as [|c s IH]; [done|]. simpl.
  intros [Hc Hs]%andb_true_iff. specialize (IH Hs).
  destruct (Py.rstrip s); [destruct (Py.is_space c)|]; simpl in *;
    by rewrite ?Hc, ?IH.
Qed.

(** *** Text of that shape is left alone *)

Lemma lower_fixed (s : string) :
  str_all (λ c, Ascii.eqb (Py.char_lower c) c) s = true → Py.lower s = s.
Proof.
  unfold Py.lower. induction s as [|c s IH]; [done|]. simpl.
  intros [Hc%Ascii.eqb_eq Hs]%andb_true_iff. by rewrite Hc, IH.
Qed.

Lemma sub_ws_fixed (b : bool) (s : string) :
  spaced b s → Py.sub_ws_from b s = s.
Proof.
  revert b. induction s as [|c s IH]; intros b; [done|]. simpl.
  destruct (Py.is_space c).
  - intros (-> & -> & H). by rewrite IH.
  - intros H. by rewrite IH.
Qed.

Lemma lstrip_fixed (s : string) : no_lead s → Py.lstrip s = s.
Proof. destruct s as [|c s]; [done|]. simpl. by intros ->. Qed.

Lemma rstrip_fixed (s : string) : no_trail s → Py.rstrip s = s.
Proof.
  induction s as [|c s IH]; [done|]. simpl.
  destruct s as [|d s]; [by intros ->|].
  intros H. by rewrite IH.
Qed.

(** The facts about [normalize_text] that the matcher's insensitivity to
    case and spacing rests on. *)
Lemma normalize_text_shape (text : string) :
  Py.lower (normalize_text text) = normalize_text text
  ∧ spaced false (normalize_text text)
  ∧ no_lead (normalize_text text)
  ∧ no_trail (normalize_text text).
Proof.
  unfold normalize_text, Py.strip, Py.sub_ws. repeat split.
  - apply lower_fixed, str_all_rstrip, str_all_lstrip, str_all_sub_ws;
      [done|apply str_all_lower].
  - eapply rstrip_spaced, lstrip_spaced, sub_ws_spaced.
  - apply rstrip_no_lead, lstrip_no_lead.
  - apply rstrip_no_trail.
Qed.

Lemma normalize_text_idem (text : string) :
  normalize_text (normalize_text text) = normalize_text text.
Proof.
  destruct (normalize_text_shape text) as (Hl & Hs & Hh & Ht).
  unfold normalize_text at 1. unfold Py.strip, Py.sub_ws.
  by rewrite Hl, sub_ws_fixed, lstrip_fixed, rstrip_fixed.
Qed.

(** X1. [normalize_text] is idempotent, and its result is in lower case,
    has single plain spaces as its only white space, and neither starts nor
    ends with white space. *)
Theorem normalize_text_normal (text : string) :
  normalize_text (normalize_text text) = normalize_text text
  ∧ Py.lower (normalize_text text) = normalize_text text
  ∧ spaced false (normalize_text text)
  ∧ no_lead (normalize_text text)
  ∧ no_trail (normalize_text text).
Proof. split; [apply normalize_text_idem|apply normalize_text_shape]. Qed.

(** *** Tokens *)

Lemma findall_nonalpha (cur : string) (c : ascii) (s : string) :
  Py.is_alpha c = false →
  Py.findall_alpha_from cur (String c s) = emit cur ++ Py.findall_alpha_from "" s.
Proof.
  intros Hc. simpl. rewrite Hc. unfold emit. by destruct (String.eqb cur "").
Qed.

Lemma space_not_alpha (c : ascii) : Py.is_space c = true → Py.is_alpha c = false.
Proof. destruct c as [[] [] [] [] [] [] [] []]; vm_compute; congruence. Qed.

(** Collapsing white space does not change the tokens. *)
Lemma findall_sub_ws (b : bool) (cur s : string) :
  (b = true → cur = "") →
  Py.findall_alpha_from cur (Py.sub_ws_from b s) = Py.findall_alpha_from cur s.
Proof.
  revert b cur. induction s as [|c s IH]; intros b cur Hb; [done|].
  cbn [Py.sub_ws_from]. destruct (Py.is_space c) eqn:Hc.
  - rewrite (findall_nonalpha cur c) by by apply space_not_alpha.
    destruct b.
    + rewrite (Hb eq_refl). by rewrite IH.
    + rewrite findall_nonalpha by done. by rewrite IH.
  - simpl. destruct (Py.is_alpha c); [by apply IH|].
    destruct (String.eqb cur ""); by rewrite IH.
Qed.

Lemma findall_lstrip (s : string) :
  Py.findall_alpha_from "" (Py.lstrip s) = Py.findall_alpha_from "" s.
Proof.
  induction s as [|c s IH]; [done|]. cbn [Py.lstrip].
  destruct (Py.is_space c) eqn:Hc; [|done].
  by rewrite (findall_nonalpha "" c) by by apply space_not_alpha.
Qed.

Lemma findall_rstrip (cur s : string) :
  Py.findall_alpha_from cur (Py.rstrip s) = Py.findall_alpha_from cur s.
Proof.
  revert cur. induction s as [|c s IH]; intros cur; [done|].
  cbn [Py.rstrip]. destruct (Py.rstrip s) as [|d r] eqn:Hr.
  - destruct (Py.is_space c) eqn:Hc.
    + rewrite (findall_nonalpha cur c) by by apply space_not_alpha.
      rewrite <- IH. simpl. unfold emit.
      destruct (String.eqb cur ""); by rewrite ?app_nil_r.
    + simpl. destruct (Py.is_alpha c).
      * by rewrite <- IH.
      * by rewrite <- (IH "").
  - simpl. destruct (Py.is_alpha c); by rewrite <- IH.
Qed.

Lemma lower_app (a b : string) : Py.lower (a +:+ b) = Py.lower a +:+ Py.lower b.
Proof.
  unfold Py.lower. induction a as [|c a IH]; [done|].
  change (String c a +:+ b) with (String c (a +:+ b)). simpl. by rewrite IH.
Qed.

Lemma lower_eqb_empty (s : string) :
  String.eqb (Py.lower s) "" = String.eqb s "".
Proof. by destruct s. Qed.

(** Lower-casing an ASCII text lower-cases its tokens. *)
Lemma findall_lower (cur s : string) :
  str_all is_ascii s = true →
  Py.findall_alpha_from (Py.lower cur) (Py.lower s)
  = Py.lower <$> Py.findall_alpha_from cur s.
Proof.
  revert cur. induction s as [|c s IH]; intros cur Hs.
  - simpl. rewrite lower_eqb_empty. by destruct (String.eqb cur "").
  - simpl in Hs. apply andb_true_iff in Hs as [Hc Hs].
    change (Py.lower (String c s)) with (String (Py.char_lower c) (Py.lower s)).
    cbn [Py.findall_alpha_from].
    rewrite (char_lower_ascii_alpha c Hc), lower_eqb_empty.
    destruct (Py.is_alpha c).
    + by rewrite <- IH, lower_app.
    + destruct (String.eqb cur ""); [by apply (IH "")|].
      rewrite fmap_cons. f_equal. by apply (IH "").
Qed.

(** The tokens of normalized text are the tokens of the lower-cased text:
    collapsing and stripping white space moves no token boundary. *)
Lemma tokens_of_lower (text : string) :
  extract_alpha_tokens (normalize_text text)
  = extract_alpha_tokens (Py.lower text).
Proof.
  unfold extract_alpha_tokens, normalize_text, Py.strip, Py.sub_ws, Py.findall_alpha.
  by rewrite findall_rstrip, findall_lstrip, findall_sub_ws.
Qed.

Lemma str_all_app (p : ascii → bool) (a b : string) :
  str_all p (a +:+ b) = str_all p a && str_all p b.
Proof.
  induction a as [|c a IH]; [done|].
  change (String c a +:+ b) with (String c (a +:+ b)).
  simpl. by rewrite IH, andb_assoc.
Qed.

Lemma string_app_nil_r (a : string) : a +:+ "" = a.
Proof.
  induction a as [|c a IH]; [done|].
  change (String c a +:+ "") with (String c (a +:+ "")). by rewrite IH.
Qed.

Lemma string_app_assoc (a b c : string) : (a +:+ b) +:+ c = a +:+ (b +:+ c).
Proof.
  induction a as [|x a IH]; [done|].
  change (String x (a +:+ b) +:+ c = String x (a +:+ (b +:+ c))).
  change (String x ((a +:+ b) +:+ c) = String x (a +:+ (b +:+ c))).
  by rewrite IH.
Qed.

Lemma join_cons (x : string) (l : list string) :
  Py.join (x :: l) = x +:+ Py.join l.
Proof.
  unfold Py.join. destruct l; simpl; [symmetry; apply string_app_nil_r|done].
Qed.

(** Every token is a non-empty run of letters that satisfy [p], when the
    letters of the text do. *)
Lemma findall_tokens (p : ascii → bool) (cur s : string) :
  str_all (λ c, implb (Py.is_alpha c) (p c)) s = true →
  str_all p cur = true →
  Forall (λ t, t ≠ "" ∧ str_all p t = true) (Py.findall_alpha_from cur s).
Proof.
  revert cur. induction s as [|c s IH]; intros cur Hs Hcur.
  - simpl. destruct (String.eqb_spec cur ""); [constructor|].
    by repeat constructor.
  - simpl in Hs. apply andb_true_iff in Hs as [Hc Hs]. simpl.
    destruct (Py.is_alpha c).
    + apply IH; [done|]. rewrite str_all_app, Hcur. simpl in *. by rewrite Hc.
    + destruct (String.eqb_spec cur ""); [by apply IH|].
      constructor; [done|by apply IH].
Qed.

(** The tokens, put together, are the letters of the text. *)
Lemma findall_join (cur s : string) :
  Py.join (Py.findall_alpha_from cur s) = cur +:+ Py.str_filter Py.is_alpha s.
Proof.
  revert cur. induction s as [|c s IH]; intros cur.
  - simpl. rewrite string_app_nil_r.
    by destruct (String.eqb_spec cur "") as [->|].
  - simpl. destruct (Py.is_alpha c).
    + by rewrite IH, string_app_assoc.
    + destruct (String.eqb_spec cur "") as [->|]; [apply IH|].
      by rewrite join_cons, IH.
Qed.

Lemma lower_letters (s : string) :
  str_all (λ c, implb (Py.is_alpha c) (Py.is_ascii_lower c)) (Py.lower s) = true.
Proof.
  unfold Py.lower. induction s as [|c s IH]; [done|]. simpl. rewrite IH.
  rewrite andb_true_r.
  destruct c as [[] [] [] [] [] [] [] []]; reflexivity.
Qed.

Lemma findall_no_alpha (s : string) :
  has_alpha s = false → Py.findall_alpha s = [].
Proof.
  unfold Py.findall_alpha. induction s as [|c s IH]; [done|]. simpl.
  intros [Hc Hs]%orb_false_elim. rewrite Hc. by apply IH.
Qed.

Lemma filter_alpha_empty (s : string) :
  Py.str_filter Py.is_alpha s = "" → has_alpha s = false.
Proof.
  induction s as [|c s IH]; [done|]. simpl.
  destruct (Py.is_alpha c); [done|]. exact IH.
Qed.

(** A text has a token exactly when it has a character of [[a-zA-Z]]. *)
Lemma findall_nil (s : string) :
  Py.findall_alpha s = [] ↔ has_alpha s = false.
Proof.
  split; [|apply findall_no_alpha].
  intros E. apply filter_alpha_empty.
  pose proof (findall_join "" s) as J. unfold Py.findall_alpha in E.
  by rewrite E in J.
Qed.

Lemma has_alpha_lower_ascii (s : string) :
  str_all is_ascii s = true → has_alpha (Py.lower s) = has_alpha s.
Proof.
  unfold Py.lower. induction s as [|c s IH]; [done|]. simpl.
  intros [Hc Hs]%andb_true_iff.
  by rewrite (char_lower_ascii_alpha c Hc), IH.
Qed.

(** The tokens of a name are non-empty strings of lower-case ASCII
    letters. *)
Lemma tokens_lower_case (text : string) :
  Forall (λ t, t ≠ "" ∧ str_all Py.is_ascii_lower t = true)
         (extract_alpha_tokens (normalize_text text)).
Proof.
  rewrite tokens_of_lower.
  apply findall_tokens; [apply lower_letters|done].
Qed.

(** The name has no token exactly when its lower-cased text has no
    character of [[a-zA-Z]]. *)
Lemma tokens_nil (text : string) :
  extract_alpha_tokens (normalize_text text) = []
  ↔ has_alpha (Py.lower text) = false.
Proof. rewrite tokens_of_lower. apply findall_nil. Qed.

(** X2. The tokens of a name are found in its lower-cased text: collapsing
    and stripping white space moves no token boundary.  Each token is a
    non-empty string of lower-case ASCII letters; the tokens put together
    are the characters of [[a-zA-Z]] of the lower-cased text, in order; and
    there is no token exactly when the lower-cased text has no such
    character.  For an ASCII text the tokens are the lower-cased maximal
    runs of letters of the raw text. *)
Theorem tokens_of_normalized_text (text : string) :
  let tokens := extract_alpha_tokens (normalize_text text) in
  tokens = extract_alpha_tokens (Py.lower text)
  ∧ Forall (λ t, t ≠ "" ∧ str_all Py.is_ascii_lower t = true) tokens
  ∧ Py.join tokens = Py.str_filter Py.is_alpha (Py.lower text)
  ∧ (tokens = [] ↔ has_alpha (Py.lower text) = false)
  ∧ (str_all is_ascii text = true →
     tokens = Py.lower <$> extract_alpha_tokens text).
Proof.
  intros tokens. subst tokens.
  split; [apply tokens_of_lower|].
  split; [apply tokens_lower_case|].
  split; [rewrite tokens_of_lower; apply findall_join|].
  split; [apply tokens_nil|].
  intros Hascii. rewrite tokens_of_lower.
  by apply (findall_lower "").
Qed.
End Text.
(** ** Names without letters *)

Section Tokenizer.
Import NameProcessor Spec.

(** A name in whose normalized text the tokenizer finds nothing has no
    segments and no initials. *)
Lemma process_name_no_tokens (name : string) :
  extract_alpha_tokens (normalize_text name) = [] →
  process_name name = {| NS := []; NI := ([], []) |}.
Proof. intros H. unfold process_name. by rewrite H. Qed.

(** C6. The package looks for alphabetic characters after lower-casing the
    name: the tokenizer collects the runs of [[a-zA-Z]] of the normalized
    text.  When neither lower-cased name contains such a character, both
    names have empty segment lists and [match] returns the score 0.0 and no
    matches (with [N = 0] and no scores).  Every stage is a total function,
    and the only division is guarded by [N > 0]. *)
Theorem match_no_alpha (doublemetaphone : string → string * string)
    (jaro_winkler : string → string → float) (target_name reference_name : string) :
  has_alpha (Py.lower target_name) = false →
  has_alpha (Py.lower reference_name) = false →
  process_name target_name = {| NS := []; NI := ([], []) |}
  ∧ process_name reference_name = {| NS := []; NI := ([], []) |}
  ∧ PhoneticMatcher.match_ doublemetaphone jaro_winkler
      target_name reference_name
    = {| F1 := 0; N := 0; Target := target_name; Reference := reference_name;
         Matches := []; AllScores := [] |}.
Proof.
  intros Ht%tokens_nil%process_name_no_tokens
         Hr%tokens_nil%process_name_no_tokens.
  split; [done|]. split; [done|].
  unfold PhoneticMatcher.match_. by rewrite Ht, Hr.
Qed.

Lemma match_no_alpha_witness :
  has_alpha (Py.lower "#42 (?)") = false
  ∧ has_alpha (Py.lower " 007 ") = false
  ∧ PhoneticMatcher.match_ Sample.doublemetaphone Sample.jaro_winkler
      "#42 (?)" " 007 "
    = {| F1 := 0; N := 0; Target := "#42 (?)"; Reference := " 007 ";
         Matches := []; AllScores := [] |}.
Proof.
  split; [reflexivity|]. split; [reflexivity|].
  apply (match_no_alpha _ _ "#42 (?)" " 007 "); reflexivity.
Defined.
End Tokenizer.

(** ** More on the segmenter *)

Section SegmenterFacts.
Import NameProcessor Spec.

Lemma first_occurrences_sublist (items : list string) :
  first_occurrences items `sublist_of` items.
Proof.
  induction items as [|x rest IH]; simpl; [done|].
  apply sublist_skip. etrans; [apply sublist_filter|done].
Qed.

Lemma filter_ne_fixed (x : string) (l : list string) :
  x ∉ l → filter (λ y, y ≠ x) l = l.
Proof.
  induction l as [|y l IH]; [done|].
  rewrite not_elem_of_cons. intros [Hxy Hx].
  rewrite filter_cons_True by done. by rewrite IH.
Qed.

Lemma first_occurrences_fixed (items : list string) :
  NoDup items → first_occurrences items = items.
Proof.
  induction 1 as [|x rest Hx Hnd IH]; simpl; [done|].
  by rewrite IH, filter_ne_fixed.
Qed.

(** X3. [remove_duplicates_preserve_order] returns a list without
    duplicates that has the same members as its input and keeps their
    order (it is a sublist of the input); a list without duplicates is
    returned unchanged, so the function is idempotent. *)
Theorem remove_duplicates_preserve_order_facts (items : list string) :
  let result := remove_duplicates_preserve_order items in
  NoDup result
  ∧ (∀ x, x ∈ result ↔ x ∈ items)
  ∧ result `sublist_of` items
  ∧ (NoDup items → result = items)
  ∧ remove_duplicates_preserve_order result = result.
Proof.
  intros result. subst result. rewrite !remove_duplicates_spec.
  split; [apply first_occurrences_NoDup|].
  split; [intros x; apply first_occurrences_elem|].
  split; [apply first_occurrences_sublist|].
  split; [apply first_occurrences_fixed|].
  apply first_occurrences_fixed, first_occurrences_NoDup.
Qed.

(** *** Name segments *)

Lemma length_str_map (f : ascii → ascii) (s : string) :
  String.length (Py.str_map f s) = String.length s.
Proof. induction s as [|c s IH]; [done|]. simpl. by rewrite IH. Qed.

(** On ASCII letters [upper] and [lower] work character by character. *)
Lemma char_upper_letter (c : ascii) :
  Py.is_alpha c = true →
  Py.is_ascii_upper (Py.char_upper c) = true
  ∧ Py.char_upper (Py.char_upper c) = Py.char_upper c.
Proof. destruct c as [[] [] [] [] [] [] [] []]; vm_compute; intuition congruence. Qed.

Lemma char_lower_letter (c : ascii) :
  Py.is_alpha c = true → Py.is_alpha (Py.char_lower c) = true.
Proof. destruct c as [[] [] [] [] [] [] [] []]; vm_compute; congruence. Qed.

Lemma upper_is_alpha (c : ascii) :
  Py.is_ascii_upper c = true → Py.is_alpha c = true.
Proof. unfold Py.is_alpha. intros ->. apply orb_true_r. Qed.

Lemma lower_letters_alpha (s : string) :
  str_all Py.is_alpha s = true → str_all Py.is_alpha (Py.lower s) = true.
Proof.
  unfold Py.lower. induction s as [|c s IH]; [done|]. simpl.
  intros [Hc Hs]%andb_true_iff. by rewrite (char_lower_letter c Hc), IH.
Qed.

(** [capitalize] of a token of ASCII letters: same length, ASCII letters,
    and a capitalized token is left as it is. *)
Lemma capitalize_letters (s : string) :
  str_all Py.is_alpha s = true →
  String.length (Py.capitalize s) = String.length s
  ∧ str_all Py.is_alpha (Py.capitalize s) = true
  ∧ Py.capitalize (Py.capitalize s) = Py.capitalize s.
Proof.
  destruct s as [|c s]; [done|]. simpl.
  intros [Hc Hs]%andb_true_iff.
  destruct (char_upper_letter c Hc) as [Hu Hi].
  split; [|split].
  - unfold Py.lower. by rewrite length_str_map.
  - by rewrite (upper_is_alpha _ Hu), lower_letters_alpha.
  - by rewrite Hi, lower_idem.
Qed.

(** [upper] of a token of ASCII letters: same length, upper-case ASCII
    letters. *)
Lemma upper_letters (s : string) :
  str_all Py.is_alpha s = true →
  String.length (Py.upper s) = String.length s
  ∧ str_all Py.is_ascii_upper (Py.upper s) = true.
Proof.
  intros Hs. split; [apply length_str_map|].
  unfold Py.upper. induction s as [|c s IH]; [done|]. simpl in *.
  apply andb_true_iff in Hs as [Hc Hs].
  destruct (char_upper_letter c Hc) as [-> _]. by apply IH.
Qed.

Lemma name_segment_form_letters (token : string) :
  str_all Py.is_alpha token = true → is_name_segment token = true →
  (2 ≤ String.length (name_segment_form token))%nat
  ∧ str_all Py.is_alpha (name_segment_form token) = true
  ∧ Py.capitalize (name_segment_form token) = name_segment_form token.
Proof.
  unfold is_name_segment, name_segment_form. intros Hl.
  destruct (is_alias token); cbn [orb].
  { intros _. split; [simpl; lia|done]. }
  destruct (capitalize_letters token Hl) as (-> & -> & ->).
  intros H%Nat.leb_le. done.
Qed.

Lemma extract_name_segments_forms (tokens : list string) :
  extract_name_segments tokens
  = first_occurrences
      (name_segment_form <$> filter (λ t, is_name_segment t = true) tokens).
Proof.
  unfold extract_name_segments.
  by rewrite name_segment_loop, remove_duplicates_spec.
Qed.

(** X4. The name segments of tokens of ASCII letters (what the tokenizer
    yields) are pairwise different; each has at least two characters, is
    made of ASCII letters and is in capitalized form; and there is none
    exactly when no token is an alias or longer than one character. *)
Theorem extract_name_segments_facts (tokens : list string) :
  Forall (λ t, str_all Py.is_alpha t = true) tokens →
  let ns := extract_name_segments tokens in
  NoDup ns
  ∧ Forall (λ s, (2 ≤ String.length s)%nat
                 ∧ str_all Py.is_alpha s = true
                 ∧ Py.capitalize s = s) ns
  ∧ (ns = [] ↔ Forall (λ t, is_name_segment t = false) tokens).
Proof.
  intros Hletters ns. subst ns. rewrite extract_name_segments_forms.
  split; [apply first_occurrences_NoDup|]. split.
  - apply Forall_forall. intros s.
    rewrite first_occurrences_elem, list_elem_of_fmap.
    intros (t & -> & [Ht Hin]%list_elem_of_filter).
    apply name_segment_form_letters; [|done].
    rewrite Forall_forall in Hletters. by apply Hletters.
  - split.
    + intros E. apply Forall_forall. intros t Ht.
      destruct (is_name_segment t) eqn:Hs; [|done].
      assert (H : name_segment_form t ∈ ([] : list string)); [|by apply elem_of_nil in H].
      rewrite <- E, first_occurrences_elem, list_elem_of_fmap.
      exists t. by rewrite list_elem_of_filter.
    + intros H.
      assert (E : filter (λ t, is_name_segment t = true) tokens = []).
      { induction H as [|t l Ht Hl IH]; [done|].
        rewrite filter_cons_False by congruence. apply IH.
        by apply Forall_cons in Hletters as [_ ?]. }
      by rewrite E.
Qed.

Lemma extract_name_segments_facts_witness :
  Forall (λ s, (2 ≤ String.length s)%nat
               ∧ str_all Py.is_alpha s = true
               ∧ Py.capitalize s = s)
         (extract_name_segments ["mohd"; "al"; "x"; "AL"; "khan"; "al"]).
Proof.
  apply (extract_name_segments_facts ["mohd"; "al"; "x"; "AL"; "khan"; "al"]).
  repeat constructor.
Defined.

(** Tokens that are all spelling variants yield the one canonical segment
    and no initials. *)
Lemma alias_tokens_segments (tokens : list string) :
  tokens ≠ [] → Forall (λ t, is_alias t = true) tokens →
  extract_name_segments tokens = ["Muhammad"]
  ∧ extract_initials tokens = ([], []).
Proof.
  intros Hne Hall. split.
  - rewrite extract_name_segments_forms.
    assert (E : name_segment_form
                  <$> filter (λ t, is_name_segment t = true) tokens
                = replicate (length tokens) "Muhammad").
    { clear Hne. induction Hall as [|t l Ht Hl IH]; [done|].
      rewrite filter_cons_True
        by (unfold is_name_segment; by rewrite Ht).
      rewrite fmap_cons, IH. unfold name_segment_form. by rewrite Ht. }
    rewrite E. destruct tokens as [|t0 rest]; [done|].
    simpl. f_equal. clear.
    induction (length rest) as [|n IH]; [done|]. simpl.
    rewrite filter_cons_False by (intros H; by apply H). by rewrite IH.
  - unfold extract_initials.
    assert (E : fold_left initials_step tokens ([], [], []) = ([], [], [])).
    { clear Hne. induction Hall as [|t l Ht Hl IH]; [done|].
      cbn [fold_left]. unfold initials_step at 2.
      apply alias_length in Ht.
      destruct (String.length t =? 1)%nat eqn:E; [apply Nat.eqb_eq in E; lia|].
      exact IH. }
    by rewrite E.
Qed.

(** X5. A name whose tokens are all spelling variants of the alias set, in
    any case and with any punctuation, has the single name segment
    "Muhammad" and no initials. *)
Theorem process_name_alias (name : string) :
  extract_alpha_tokens (normalize_text name) ≠ [] →
  Forall (λ t, is_alias t = true) (extract_alpha_tokens (normalize_text name)) →
  process_name name = {| NS := ["Muhammad"]; NI := ([], []) |}.
Proof.
  intros Hne Hall. unfold process_name.
  destruct (alias_tokens_segments _ Hne Hall) as [-> ->]. done.
Qed.

Lemma process_name_alias_witness :
  process_name "MOHD. Md-mohammed" = {| NS := ["Muhammad"]; NI := ([], []) |}.
Proof.
  apply process_name_alias; [by vm_compute|].
  vm_compute. by repeat constructor.
Defined.

(** *** Initials *)

Lemma extract_initials_forms (tokens : list string) :
  extract_initials tokens
  = (first_occurrences (joined <$> initial_runs tokens),
     first_occurrences
       (Py.upper <$> filter (λ t, is_initial t = true) tokens)).
Proof.
  unfold extract_initials.
  pose proof (initials_loop tokens [] [] []) as H.
  destruct (fold_left initials_step tokens ([], [], []))
    as [[ni_joined ni_individual] buffer].
  unfold close_buffer in H.
  pose proof (f_equal fst H) as H1. pose proof (f_equal snd H) as H2.
  cbn [fst snd] in H1, H2. rewrite H1, H2. cbn [app].
  rewrite !remove_duplicates_spec, runs_after_nil.
  by rewrite <- list_fmap_compose.
Qed.

(** Every run is a non-empty list of initials. *)
Lemma initial_runs_runs (tokens : list string) :
  Forall (λ run, run ≠ [] ∧ Forall (λ t, is_initial t = true) run)
         (initial_runs tokens).
Proof.
  induction tokens as [|token rest IH]; [constructor|].
  cbn [initial_runs]. destruct (is_initial token) eqn:Ht; [|done].
  destruct (head rest) as [next|], (initial_runs rest) as [|run runs];
    try destruct (is_initial next);
    repeat (constructor; try done).
  - by apply Forall_cons in IH as [[_ ?] _].
  - by apply Forall_cons in IH as [_ ?].
Qed.

Lemma initial_runs_nil (tokens : list string) :
  initial_runs tokens = [] ↔ Forall (λ t, is_initial t = false) tokens.
Proof.
  induction tokens as [|token rest IH]; [by split; [constructor|]|].
  split.
  - intros E. destruct (is_initial token) eqn:Ht.
    + destruct (initial_runs_initial token rest Ht) as (? & ? & E'). congruence.
    + constructor; [done|]. apply IH. cbn [initial_runs] in E. by rewrite Ht in E.
  - intros [Ht Hr]%Forall_cons. cbn [initial_runs]. rewrite Ht. by apply IH.
Qed.

Lemma first_occurrences_nil (items : list string) :
  first_occurrences items = [] ↔ items = [].
Proof. by destruct items. Qed.

Lemma fmap_nil_iff {A B} (f : A → B) (l : list A) : f <$> l = [] ↔ l = [].
Proof. by destruct l. Qed.

Lemma length_string_app (a b : string) :
  String.length (a +:+ b) = String.length a + String.length b.
Proof.
  induction a as [|c a IH]; [done|].
  change (String c a +:+ b) with (String c (a +:+ b)). simpl. by rewrite IH.
Qed.

Lemma str_all_join (p : ascii → bool) (parts : list string) :
  Forall (λ t, str_all p t = true) parts → str_all p (Py.join parts) = true.
Proof.
  induction 1 as [|t l Ht Hl IH]; [done|].
  by rewrite join_cons, str_all_app, Ht, IH.
Qed.

(** The joined form of a run of one-letter tokens has one upper-case ASCII
    letter for each token. *)
Lemma joined_letters (run : list string) :
  Forall (λ t, str_all Py.is_alpha t = true) run →
  Forall (λ t, is_initial t = true) run →
  String.length (joined run) = length run
  ∧ str_all Py.is_ascii_upper (joined run) = true.
Proof.
  unfold joined, upper_run. intros Hl Hi. split.
  - induction Hi as [|t run Ht Hrun IH]; [done|].
    apply Forall_cons in Hl as [Hlt Hl].
    rewrite fmap_cons, join_cons, length_string_app, (IH Hl).
    destruct (upper_letters t Hlt) as [-> _].
    apply Nat.eqb_eq in Ht. by rewrite Ht.
  - apply str_all_join, Forall_fmap. eapply Forall_impl; [exact Hl|].
    intros t Ht. by apply upper_letters.
Qed.

(** The tokens of a run are tokens of the list. *)
Lemma initial_runs_elem (tokens run : list string) (t : string) :
  run ∈ initial_runs tokens → t ∈ run → t ∈ tokens.
Proof.
  revert run. induction tokens as [|token rest IH]; intros run.
  { by intros ?%elem_of_nil. }
  cbn [initial_runs]. destruct (is_initial token) eqn:Ht.
  - destruct (head rest) as [next|] eqn:Hh,
      (initial_runs rest) as [|run0 runs] eqn:Hr.
    + destruct (is_initial next).
      * intros ->%list_elem_of_singleton ->%list_elem_of_singleton. left.
      * intros ->%list_elem_of_singleton ->%list_elem_of_singleton. left.
    + destruct (is_initial next).
      * intros [->|Hin]%elem_of_cons.
        -- intros [->|Hin]%elem_of_cons; [left|].
           right. apply (IH run0); [left|done].
        -- intros Ht'. right. apply (IH run); [by right|done].
      * intros [->|Hin]%elem_of_cons.
        -- intros ->%list_elem_of_singleton. left.
        -- intros Ht'. right. by apply (IH run).
    + intros ->%list_elem_of_singleton ->%list_elem_of_singleton. left.
    + intros [->|Hin]%elem_of_cons.
      * intros ->%list_elem_of_singleton. left.
      * intros Ht'. right. by apply (IH run).
  - intros Hrun Hin. right. by apply (IH run).
Qed.

(** X6. For tokens of ASCII letters (what the tokenizer yields): both lists
    of initials are free of duplicates; an individual initial is one
    upper-case ASCII letter; a joined group is a non-empty string of
    upper-case ASCII letters; and the two lists are empty together, exactly
    when no token is one character long. *)
Theorem extract_initials_facts (tokens : list string) :
  Forall (λ t, str_all Py.is_alpha t = true) tokens →
  let ni := extract_initials tokens in
  NoDup ni.1 ∧ NoDup ni.2
  ∧ Forall (λ s, (1 ≤ String.length s)%nat
                 ∧ str_all Py.is_ascii_upper s = true) ni.1
  ∧ Forall (λ s, String.length s = 1
                 ∧ str_all Py.is_ascii_upper s = true) ni.2
  ∧ (ni.1 = [] ↔ Forall (λ t, is_initial t = false) tokens)
  ∧ (ni.2 = [] ↔ Forall (λ t, is_initial t = false) tokens).
Proof.
  intros Hletters ni. subst ni. rewrite extract_initials_forms. cbn [fst snd].
  pose proof Hletters as Hl. rewrite Forall_forall in Hl.
  split; [apply first_occurrences_NoDup|].
  split; [apply first_occurrences_NoDup|].
  split; [|split; [|split]].
  - apply Forall_forall. intros s.
    rewrite first_occurrences_elem, list_elem_of_fmap.
    intros (run & -> & Hrun).
    pose proof (initial_runs_runs tokens) as Hall.
    rewrite Forall_forall in Hall. destruct (Hall run Hrun) as [Hne Hinit].
    assert (Hrl : Forall (λ t, str_all Py.is_alpha t = true) run).
    { apply Forall_forall. intros t Ht.
      apply Hl. by apply (initial_runs_elem tokens run). }
    destruct (joined_letters run Hrl Hinit) as [-> ->].
    split; [|done]. destruct run; [done|simpl; lia].
  - apply Forall_forall. intros s.
    rewrite first_occurrences_elem, list_elem_of_fmap.
    intros (t & -> & [Ht Hin]%list_elem_of_filter).
    destruct (upper_letters t (Hl t Hin)) as [-> ->].
    split; [|done]. by apply Nat.eqb_eq in Ht.
  - rewrite first_occurrences_nil, fmap_nil_iff. apply initial_runs_nil.
  - rewrite first_occurrences_nil, fmap_nil_iff. split.
    + intros E. apply Forall_forall. intros t Ht.
      destruct (is_initial t) eqn:Hi; [|done].
      assert (H : t ∈ filter (λ t, is_initial t = true) tokens)
        by by apply list_elem_of_filter.
      rewrite E in H. by apply elem_of_nil in H.
    + clear. induction 1 as [|t l Ht Hl IH]; [done|].
      by rewrite filter_cons_False by congruence.
Qed.

Lemma extract_initials_facts_witness :
  Forall (λ s, String.length s = 1 ∧ str_all Py.is_ascii_upper s = true)
         (extract_initials ["j"; "k"; "rowling"; "J"; "r"]).2.
Proof.
  apply (extract_initials_facts ["j"; "k"; "rowling"; "J"; "r"]).
  repeat constructor.
Defined.
End SegmenterFacts.

(** ** The encoder and the unit pools *)

Section Units.
Import Spec.
Variable doublemetaphone : string → string * string.

Lemma enumerate_from_fst (i : nat) (segments : list string) :
  fst <$> PhoneticEncoder.enumerate_from i segments = seq i (length segments).
Proof.
  revert i. induction segments as [|s l IH]; intros i; [done|].
  simpl. by rewrite IH.
Qed.

Lemma enumerate_from_snd (i : nat) (segments : list string) :
  snd <$> PhoneticEncoder.enumerate_from i segments = segments.
Proof.
  revert i. induction segments as [|s l IH]; intros i; [done|].
  simpl. by rewrite IH.
Qed.

Lemma bind_singleton_fmap {A B} (f : A → B) (l : list A) :
  (l ≫= λ x, [f x]) = f <$> l.
Proof.
  induction l as [|x l IH]; [done|]. by rewrite bind_cons, IH.
Qed.

(** The encoder is a map over the enumerated strings. *)
Lemma encode_segments_fmap (segments : list string) :
  PhoneticEncoder.encode_segments doublemetaphone segments
  = (λ it : nat * string,
       {| original_text := it.2; index := it.1;
          primary_code := (doublemetaphone it.2).1;
          secondary_code :=
            if Py.truthy (doublemetaphone it.2).2
            then Some (doublemetaphone it.2).2 else None |})
      <$> PhoneticEncoder.enumerate_from 0 segments.
Proof.
  unfold PhoneticEncoder.encode_segments.
  rewrite (fold_left_append _
    (λ it : nat * string,
       [{| original_text := it.2; index := it.1;
           primary_code := (doublemetaphone it.2).1;
           secondary_code :=
             if Py.truthy (doublemetaphone it.2).2
             then Some (doublemetaphone it.2).2 else None |}]))
    by (by intros acc [i token]).
  simpl. apply bind_singleton_fmap.
Qed.

Lemma encode_segments_texts (segments : list string) :
  original_text <$> PhoneticEncoder.encode_segments doublemetaphone segments
  = segments.
Proof.
  rewrite encode_segments_fmap, <- list_fmap_compose.
  apply enumerate_from_snd.
Qed.

(** X7. The encoder returns one segment per string, in order: the texts are
    the input, the indices count from 0, and a secondary code is never the
    empty string (an empty one is stored as [None]). *)
Theorem encode_segments_facts (segments : list string) :
  let traced := PhoneticEncoder.encode_segments doublemetaphone segments in
  original_text <$> traced = segments
  ∧ index <$> traced = seq 0 (length segments)
  ∧ Forall (λ s, secondary_code s ≠ Some "") traced.
Proof.
  intros traced. subst traced.
  split; [apply encode_segments_texts|].
  rewrite encode_segments_fmap, <- !list_fmap_compose. split.
  - apply enumerate_from_fst.
  - apply Forall_fmap, Forall_forall. intros [i token] _. simpl.
    destruct (doublemetaphone token).2 as [|c s]; simpl; congruence.
Qed.

Lemma label_segments_fmap (next_id : nat) (lbl : string)
    (traced : list TracedSegment) :
  segment <$> PhoneticMatcher.label_segments next_id lbl traced = traced
  ∧ label <$> PhoneticMatcher.label_segments next_id lbl traced
    = replicate (length traced) lbl.
Proof.
  revert next_id. induction traced as [|s l IH]; intros next_id; [done|].
  cbn [PhoneticMatcher.label_segments length replicate]. rewrite !fmap_cons.
  destruct (IH (S next_id)) as [-> ->]. done.
Qed.

(** The texts of the units of a name. *)
Lemma units_texts (next_id : nat) (data : NameProfile) :
  (λ u, original_text (segment u))
    <$> PhoneticMatcher.units doublemetaphone next_id data
  = NS data ++ (NI data).1.
Proof.
  unfold PhoneticMatcher.units.
  rewrite fmap_app, !(list_fmap_compose segment original_text).
  rewrite !(proj1 (label_segments_fmap _ _ _)).
  by rewrite !encode_segments_texts.
Qed.

(** X8. The units of a name are its name segments followed by its joined
    initials: the texts are [NS ++ NI[0]], the labels are "[NS]" for the
    former and "[NI]" for the latter, and the objects are pairwise
    different. *)
Theorem units_layout (next_id : nat) (data : NameProfile) :
  let us := PhoneticMatcher.units doublemetaphone next_id data in
  (λ u, original_text (segment u)) <$> us = NS data ++ (NI data).1
  ∧ label <$> us
    = replicate (length (NS data)) "[NS]"
        ++ replicate (length (NI data).1) "[NI]"
  ∧ NoDup (obj_id <$> us).
Proof.
  intros us. subst us. split; [apply units_texts|]. split.
  - unfold PhoneticMatcher.units.
    rewrite fmap_app, !(proj2 (label_segments_fmap _ _ _)).
    by rewrite !length_encode_segments.
  - rewrite units_ids. apply NoDup_seq.
Qed.
End Units.

(** ** More on the pair scorer *)

Section ScorerFacts.
Import SimilarityEngine Spec FloatFacts.
Variable jaro_winkler : string → string → float.

Lemma ltb_irrefl (x : float) : (x <? x)%float = false.
Proof.
  destruct (x <? x)%float eqn:H; [|done].
  pose proof (ltb_leb _ _ H). pose proof (ltb_not_leb _ _ H). congruence.
Qed.

Lemma ltb_trans (x y z : float) :
  (x <? y)%float = true → (y <? z)%float = true → (x <? z)%float = true.
Proof. intros H1 H2. eapply leb_ltb_trans; [by apply ltb_leb|done]. Qed.

(** The loop over the combinations keeps the greatest similarity, and on a
    tie the combination that came first. *)
Lemma compare_codes_argmax
    (combs : list (option string * option string * string)) (st : float * string) :
  (fold_left (compare_codes jaro_winkler) combs st = st
   ∧ Forall (λ e, (st.1 <? similarity jaro_winkler e)%float = false) combs)
  ∨ ∃ pre comb post,
      combs = pre ++ comb :: post
      ∧ fold_left (compare_codes jaro_winkler) combs st
        = (similarity jaro_winkler comb, comb.2)
      ∧ (st.1 <? similarity jaro_winkler comb)%float = true
      ∧ Forall (λ e, (similarity jaro_winkler comb
                      <=? similarity jaro_winkler e)%float = false) pre
      ∧ Forall (λ e, (similarity jaro_winkler comb
                      <? similarity jaro_winkler e)%float = false) post.
Proof.
  revert st. induction combs as [|c rest IH]; intros st.
  - left. by split; [|constructor].
  - cbn [fold_left]. unfold compare_codes at 2 4.
    fold (similarity jaro_winkler c).
    destruct (st.1 <? similarity jaro_winkler c)%float eqn:Hc.
    + destruct (IH (similarity jaro_winkler c, c.2))
        as [[E Hall]|(pre & comb & post & -> & E & Hlt & Hpre & Hpost)].
      * right. exists [], c, rest. rewrite E. by repeat split.
      * right. exists (c :: pre), comb, post. rewrite E.
        split; [done|]. split; [done|].
        split; [by eapply ltb_trans|]. split; [|done].
        constructor; [|done]. by apply ltb_not_leb.
    + destruct (IH st)
        as [[E Hall]|(pre & comb & post & -> & E & Hlt & Hpre & Hpost)].
      * left. split; [done|]. by constructor.
      * right. exists (c :: pre), comb, post. rewrite E.
        split; [done|]. split; [done|]. split; [done|]. split; [|done].
        constructor; [|done].
        destruct (similarity jaro_winkler comb <=? similarity jaro_winkler c)%float
          eqn:Hle; [|done].
        pose proof (ltb_leb_trans _ _ _ Hlt Hle). congruence.
Qed.

(** X9. The best code similarity is a maximum with first-wins ties.  Either
    no compared combination has a positive similarity and the scorer's loop
    ends with [(0.0, "None")]; or it ends with the similarity and the name of
    a compared combination whose similarity is positive, strictly greater
    than that of every combination compared before it, and not less than
    that of any compared after it. *)
Theorem best_combination_argmax (t_seg r_seg : TracedSegment) :
  (best_combination jaro_winkler t_seg r_seg = (0%float, "None")
   ∧ Forall (λ e, (0 <? similarity jaro_winkler e)%float = false)
            (compared t_seg r_seg))
  ∨ ∃ pre comb post,
      compared t_seg r_seg = pre ++ comb :: post
      ∧ best_combination jaro_winkler t_seg r_seg
        = (similarity jaro_winkler comb, comb.2)
      ∧ (0 <? similarity jaro_winkler comb)%float = true
      ∧ Forall (λ e, (similarity jaro_winkler comb
                      <=? similarity jaro_winkler e)%float = false) pre
      ∧ Forall (λ e, (similarity jaro_winkler comb
                      <? similarity jaro_winkler e)%float = false) post.
Proof.
  unfold best_combination. rewrite combination_loop.
  apply (compare_codes_argmax _ (0%float, "None")).
Qed.

(** When one of the two segments has no usable code, nothing is compared. *)
Lemma compared_nil (t_seg r_seg : TracedSegment) :
  no_usable_code t_seg ∨ no_usable_code r_seg → compared t_seg r_seg = [].
Proof.
  unfold compared, combinations, both, no_usable_code.
  intros [[H1 H2]|[H1 H2]]; cbn [fst snd];
    repeat (rewrite filter_cons_False
              by (cbn [fst snd]; rewrite ?H1, ?H2, ?andb_false_r; done));
    done.
Qed.

Lemma calculate_pair_score_none (t_seg r_seg : TracedSegment)
    (t_full_name r_full_name : option string) :
  no_usable_code t_seg ∨ no_usable_code r_seg →
  calculate_pair_score jaro_winkler t_seg r_seg t_full_name r_full_name
  = (0%float, "None").
Proof.
  intros H. apply (imperfect_match_score _ _ _ _ _ 0 "None"); [|done].
  unfold best_combination. rewrite combination_loop.
  fold (compared t_seg r_seg). by rewrite compared_nil.
Qed.

(** X10. When a segment has no usable code (its primary code is empty and its
    secondary code is missing or empty), the scorer returns [(0.0, "None")]
    against every other segment, whatever the similarity function and the
    full names; the matcher therefore never makes it a candidate. *)
Theorem no_usable_code_no_score (t_seg r_seg : TracedSegment)
    (t_full_name r_full_name : option string) :
  no_usable_code t_seg ∨ no_usable_code r_seg →
  calculate_pair_score jaro_winkler t_seg r_seg t_full_name r_full_name
  = (0%float, "None")
  ∧ ∀ target_name reference_name t r,
      segment t = t_seg → segment r = r_seg →
      pair_candidates jaro_winkler target_name reference_name t r = [].
Proof.
  intros H. split; [by apply calculate_pair_score_none|].
  intros target_name reference_name t r Et Er. unfold pair_candidates.
  by rewrite Et, Er, calculate_pair_score_none.
Qed.
End ScorerFacts.

Lemma no_usable_code_no_score_witness :
  Spec.no_usable_code Sample.empty_code_segment
  ∧ SimilarityEngine.calculate_pair_score Sample.jaro_winkler
      Sample.empty_code_segment Sample.john (Some "H") (Some "John")
    = (0%float, "None").
Proof.
  split; [by split|].
  apply (no_usable_code_no_score Sample.jaro_winkler).
  left. by split.
Defined.

(** ** More on the assignment solver *)

Section SolverFacts.
Import SimilarityEngine Spec.

(** The scan appends to the matches, in the order of the candidates. *)
Lemma scan_appends (cands : list Candidate.t) taken_t taken_r matches :
  ∃ new,
    (fold_left assignment_step cands (taken_t, taken_r, matches)).2
    = matches ++ new
    ∧ new `sublist_of` pairing <$> cands.
Proof.
  revert taken_t taken_r matches.
  induction cands as [|cand cands IH]; intros taken_t taken_r matches.
  - exists []. by rewrite app_nil_r.
  - cbn [fold_left].
    destruct (assignment_step_cases taken_t taken_r matches cand)
      as [(_ & _ & ->)|(_ & ->)].
    + destruct (IH ({[obj_id (Candidate.t_seg cand)]} ∪ taken_t)
                   ({[obj_id (Candidate.r_seg cand)]} ∪ taken_r)
                   (matches ++ [pairing cand])) as (new & -> & Hsub).
      exists (pairing cand :: new). rewrite <- app_assoc.
      split; [done|]. rewrite fmap_cons. by apply sublist_skip.
    + destruct (IH taken_t taken_r matches) as (new & -> & Hsub).
      exists new. split; [done|]. rewrite fmap_cons. by apply sublist_cons.
Qed.

(** The scan accepts every candidate when no instance is shared. *)
Lemma scan_all (cands : list Candidate.t) taken_t taken_r matches :
  NoDup ((λ c, obj_id (Candidate.t_seg c)) <$> cands) →
  NoDup ((λ c, obj_id (Candidate.r_seg c)) <$> cands) →
  Forall (λ c, (obj_id (Candidate.t_seg c) ∉ taken_t)
               ∧ (obj_id (Candidate.r_seg c) ∉ taken_r)) cands →
  (fold_left assignment_step cands (taken_t, taken_r, matches)).2
  = matches ++ (pairing <$> cands).
Proof.
  revert taken_t taken_r matches.
  induction cands as [|cand cands IH]; intros taken_t taken_r matches Ht Hr Hfree.
  - simpl. by rewrite app_nil_r.
  - rewrite fmap_cons in Ht, Hr.
    apply NoDup_cons in Ht as [Ht1 Ht], Hr as [Hr1 Hr].
    apply Forall_cons in Hfree as [[Hft Hfr] Hfree].
    cbn [fold_left]. rewrite assignment_step_accept by done.
    rewrite IH, fmap_cons, <- app_assoc; [done|done|done|].
    apply Forall_forall. intros c Hc.
    rewrite Forall_forall in Hfree. destruct (Hfree c Hc) as [H1 H2].
    rewrite !not_elem_of_union, !not_elem_of_singleton.
    repeat split; try done.
    + intros E. apply Ht1. rewrite <- E.
      apply list_elem_of_fmap. by exists c.
    + intros E. apply Hr1. rewrite <- E.
      apply list_elem_of_fmap. by exists c.
Qed.

(** X11. When no two candidates share a target instance or a reference
    instance, the solver returns all of them, in decreasing order of
    score. *)
Theorem solve_greedy_assignment_all (candidates : list Candidate.t) :
  NoDup ((λ c, obj_id (Candidate.t_seg c)) <$> candidates) →
  NoDup ((λ c, obj_id (Candidate.r_seg c)) <$> candidates) →
  solve_greedy_assignment candidates
  = pairing <$> Py.sort_desc Candidate.score candidates.
Proof.
  intros Ht Hr. rewrite solve_greedy_assignment_scan, scan_all.
  - done.
  - by rewrite sort_desc_perm.
  - by rewrite sort_desc_perm.
  - apply Forall_forall. intros c _. split; apply not_elem_of_empty.
Qed.

(** X12. The solver returns the pairings it accepts in the order of the
    sorted candidates: its result is a sublist of the candidates sorted by
    decreasing score (so it is never longer than the candidate list), and
    it is empty only for an empty candidate list. *)
Theorem solve_greedy_assignment_order (candidates : list Candidate.t) :
  solve_greedy_assignment candidates
    `sublist_of` pairing <$> Py.sort_desc Candidate.score candidates
  ∧ (length (solve_greedy_assignment candidates) ≤ length candidates)%nat
  ∧ (solve_greedy_assignment candidates = [] ↔ candidates = []).
Proof.
  assert (Hsub : solve_greedy_assignment candidates
                   `sublist_of` pairing <$> Py.sort_desc Candidate.score candidates).
  { rewrite solve_greedy_assignment_scan.
    destruct (scan_appends (Py.sort_desc Candidate.score candidates) ∅ ∅ [])
      as (new & -> & Hsub). done. }
  split; [done|]. split.
  - apply sublist_length in Hsub.
    by rewrite length_fmap, (Permutation_length (sort_desc_perm _ _)) in Hsub.
  - split; [|by intros ->].
    intros E. destruct candidates as [|c l]; [done|].
    destruct (proj2 (proj2 (proj2 (greedy_assignment_facts (c :: l)))) c)
      as (m & Hm & _); [left|].
    rewrite E in Hm. by apply elem_of_nil in Hm.
Qed.

(** The first candidate that reaches the greatest score leads the sorted
    list. *)
Lemma sort_desc_top {A} (key : A → float) (pre post : list A) (best : A) :
  Forall (λ c, (key c <? key best)%float = true) pre →
  Forall (λ c, (key best <? key c)%float = false) post →
  Py.sort_desc key (pre ++ best :: post)
  = best :: Py.sort_desc key (pre ++ post).
Proof.
  intros Hpre Hpost. induction Hpre as [|p pre Hp Hpre IH].
  - simpl app. apply sort_desc_front. done.
  - change (Py.sort_desc key ((p :: pre) ++ best :: post))
      with (Py.insert_desc key p (Py.sort_desc key (pre ++ best :: post))).
    rewrite IH. cbn [Py.insert_desc]. by rewrite Hp.
Qed.

(** X13. The top-scoring candidate is always accepted, and first: when a
    candidate scores strictly more than every candidate before it in the
    list and no candidate after it scores more, its pairing is the first one
    returned. *)
Theorem solve_greedy_assignment_top (pre post : list Candidate.t)
    (best : Candidate.t) :
  Forall (λ c, (Candidate.score c <? Candidate.score best)%float = true) pre →
  Forall (λ c, (Candidate.score best <? Candidate.score c)%float = false) post →
  head (solve_greedy_assignment (pre ++ best :: post)) = Some (pairing best).
Proof.
  intros Hpre Hpost.
  rewrite solve_greedy_assignment_scan, sort_desc_top by done.
  cbn [fold_left]. rewrite assignment_step_accept by apply not_elem_of_empty.
  destruct (scan_appends (Py.sort_desc Candidate.score (pre ++ post))
              ({[obj_id (Candidate.t_seg best)]} ∪ ∅)
              ({[obj_id (Candidate.r_seg best)]} ∪ ∅)
              ([] ++ [pairing best])) as (new & -> & _).
  done.
Qed.
End SolverFacts.

Lemma solve_greedy_assignment_all_witness :
  let a := {| obj_id := 0; segment := Sample.john; label := "[NS]" |} in
  let b := {| obj_id := 1; segment := Sample.john; label := "[NS]" |} in
  let c1 := {| Candidate.t_seg := a; Candidate.r_seg := b;
               Candidate.score := 0.5%float; Candidate.match_type := "Primary-Primary" |} in
  let c2 := {| Candidate.t_seg := b; Candidate.r_seg := a;
               Candidate.score := 0.75%float; Candidate.match_type := "Primary-Primary" |} in
  SimilarityEngine.solve_greedy_assignment [c1; c2]
  = [Spec.pairing c2; Spec.pairing c1].
Proof.
  intros a b c1 c2.
  rewrite (solve_greedy_assignment_all [c1; c2]); [reflexivity| |];
    (apply NoDup_cons; split;
       [by intros ?%list_elem_of_singleton|apply NoDup_singleton]).
Defined.

Lemma solve_greedy_assignment_top_witness :
  let a := {| obj_id := 0; segment := Sample.john; label := "[NS]" |} in
  let b := {| obj_id := 1; segment := Sample.john; label := "[NS]" |} in
  let cand (s : float) := {| Candidate.t_seg := a; Candidate.r_seg := b;
                   Candidate.score := s; Candidate.match_type := "Primary-Primary" |} in
  head (SimilarityEngine.solve_greedy_assignment
          [cand 0.5%float; cand 0.75%float; cand 0.75%float; cand 0.25%float])
  = Some (Spec.pairing (cand 0.75%float)).
Proof.
  intros a b cand.
  apply (solve_greedy_assignment_top [cand 0.5%float] [cand 0.75%float; cand 0.25%float]
           (cand 0.75%float)); by repeat constructor.
Defined.

(** ** More on the orchestrator *)

Section MatchFacts.
Import Spec FloatFacts.
Variable doublemetaphone : string → string * string.
Variable jaro_winkler : string → string → float.

(** *** Names without tokens, one side at a time *)

Lemma generate_candidates_no_reference (target_name reference_name : string)
    (t_units : list LabeledSegment) :
  PhoneticMatcher.generate_candidates jaro_winkler target_name reference_name
    t_units []
  = [].
Proof.
  rewrite generate_candidates_bind.
  induction t_units as [|t l IH]; [done|]. by rewrite bind_cons, IH.
Qed.

Lemma match_no_target (target_name reference_name : string) :
  NameProcessor.extract_alpha_tokens (NameProcessor.normalize_text target_name)
  = [] →
  PhoneticMatcher.match_ doublemetaphone jaro_winkler target_name reference_name
  = {| F1 := 0; N := 0; Target := target_name; Reference := reference_name;
       Matches := []; AllScores := [] |}.
Proof.
  intros Ht. unfold PhoneticMatcher.match_.
  by rewrite (process_name_no_tokens target_name).
Qed.

Lemma match_no_reference (target_name reference_name : string) :
  NameProcessor.extract_alpha_tokens (NameProcessor.normalize_text reference_name)
  = [] →
  Matches (PhoneticMatcher.match_ doublemetaphone jaro_winkler
             target_name reference_name) = [].
Proof.
  intros Hr. rewrite match_Matches, (process_name_no_tokens reference_name) by done.
  change (PhoneticMatcher.units doublemetaphone _ {| NS := []; NI := ([], []) |})
    with ([] : list LabeledSegment).
  by rewrite generate_candidates_no_reference.
Qed.

(** X14. One name without tokens is enough.  When the tokenizer finds
    nothing in the normalized target, the result is the score 0.0 with
    [N = 0] and no matches, whatever the reference is; when it finds nothing
    in the normalized reference, no pairing is returned and [AllScores] is
    empty, whatever the target is. *)
Theorem match_one_name_without_letters (target_name reference_name : string) :
  let r := PhoneticMatcher.match_ doublemetaphone jaro_winkler
             target_name reference_name in
  (NameProcessor.extract_alpha_tokens (NameProcessor.normalize_text target_name)
   = [] →
   r = {| F1 := 0; N := 0; Target := target_name; Reference := reference_name;
          Matches := []; AllScores := [] |})
  ∧ (NameProcessor.extract_alpha_tokens
       (NameProcessor.normalize_text reference_name) = [] →
     Matches r = [] ∧ AllScores r = []).
Proof.
  intros r. split; [apply match_no_target|].
  intros Hr. pose proof (match_no_reference target_name reference_name Hr) as E.
  split; [exact E|].
  pose proof (match_AllScores doublemetaphone jaro_winkler
                target_name reference_name) as HA.
  cbv zeta in HA. subst r. rewrite HA, E. apply take_nil.
Qed.

(** *** The returned pairings *)

Lemma units_id_range (next_id : nat) (data : NameProfile) (u : LabeledSegment) :
  u ∈ PhoneticMatcher.units doublemetaphone next_id data →
  (next_id ≤ obj_id u < next_id + (length (NS data) + length (NI data).1))%nat.
Proof.
  intros Hu.
  assert (H : obj_id u ∈ obj_id <$> PhoneticMatcher.units doublemetaphone next_id data)
    by (apply list_elem_of_fmap; by exists u).
  rewrite units_ids in H. apply elem_of_seq in H. lia.
Qed.

(** X15. In the result of [match] every pairing joins a target unit with a
    reference unit at a positive score; the two pools are different objects
    (every target identity is below [N], every reference identity is not), no
    reference unit is in two pairings, and there are no more pairings than
    reference units. *)
Theorem match_pairings (target_name reference_name : string) :
  let r := PhoneticMatcher.match_ doublemetaphone jaro_winkler
             target_name reference_name in
  (∀ m, m ∈ Matches r →
     MatchResult.reference_segment m
       ∈ PhoneticMatcher.units doublemetaphone (N r)
           (NameProcessor.process_name reference_name)
     ∧ (0 <? MatchResult.score m)%float = true
     ∧ (target_id m < N r ≤ reference_id m)%nat)
  ∧ NoDup (reference_id <$> Matches r)
  ∧ (length (Matches r) ≤ unit_count reference_name)%nat.
Proof.
  intros r.
  assert (Helem : ∀ m, m ∈ Matches r →
     MatchResult.target_segment m
       ∈ PhoneticMatcher.units doublemetaphone 0
           (NameProcessor.process_name target_name)
     ∧ MatchResult.reference_segment m
       ∈ PhoneticMatcher.units doublemetaphone (N r)
           (NameProcessor.process_name reference_name)
     ∧ (0 <? MatchResult.score m)%float = true).
  { intros m. subst r. rewrite match_Matches, match_N. intros Hm.
    apply greedy_assignment_facts in Hm as (cand & Hc & ->).
    by apply generate_candidates_elem in Hc as (Ht & Hr & Hs). }
  assert (Hnd : NoDup (reference_id <$> Matches r)).
  { subst r. rewrite match_Matches. apply greedy_assignment_facts. }
  split; [|split; [done|]].
  - intros m Hm. destruct (Helem m Hm) as (Ht & Hr & Hs).
    split; [done|]. split; [done|].
    apply units_id_range in Ht, Hr. unfold target_id, reference_id.
    assert (EN : N r = length (NS (NameProcessor.process_name target_name))
                       + length (NI (NameProcessor.process_name target_name)).1)
      by (subst r; apply match_N).
    lia.
  - rewrite <- (length_fmap reference_id). unfold unit_count. cbv zeta.
    rewrite <- (length_units doublemetaphone (N r)), <- (length_fmap obj_id).
    apply submseteq_length, NoDup_submseteq; [done|].
    intros i (m & -> & Hm)%list_elem_of_fmap.
    apply list_elem_of_fmap. exists (MatchResult.reference_segment m).
    split; [done|]. by apply Helem.
Qed.

(** *** Case and spacing *)

Lemma normalized_truthy (name : string) :
  NameProcessor.normalize_text name ≠ "" → Py.truthy name = true.
Proof. by destruct name. Qed.

Lemma process_name_same (name name' : string) :
  NameProcessor.normalize_text name = NameProcessor.normalize_text name' →
  NameProcessor.process_name name = NameProcessor.process_name name'.
Proof. intros H. unfold NameProcessor.process_name. by rewrite H. Qed.

Lemma units_blank (next_id : nat) (name : string) :
  NameProcessor.normalize_text name = "" →
  PhoneticMatcher.units doublemetaphone next_id
    (NameProcessor.process_name name) = [].
Proof. intros H. unfold NameProcessor.process_name. by rewrite H. Qed.

Lemma calculate_pair_score_names (a b : TracedSegment)
    (target reference target' reference' : string) :
  NameProcessor.normalize_text target = NameProcessor.normalize_text target' →
  NameProcessor.normalize_text reference = NameProcessor.normalize_text reference' →
  Py.truthy target = Py.truthy target' →
  Py.truthy reference = Py.truthy reference' →
  SimilarityEngine.calculate_pair_score jaro_winkler a b
    (Some target) (Some reference)
  = SimilarityEngine.calculate_pair_score jaro_winkler a b
      (Some target') (Some reference').
Proof.
  intros Ht Hr Htt Htr. unfold SimilarityEngine.calculate_pair_score.
  cbn [Py.truthy_opt from_option id]. by rewrite Ht, Hr, Htt, Htr.
Qed.

Lemma generate_candidates_same (target reference target' reference' : string) :
  NameProcessor.normalize_text target = NameProcessor.normalize_text target' →
  NameProcessor.normalize_text reference = NameProcessor.normalize_text reference' →
  ∀ i j,
  PhoneticMatcher.generate_candidates jaro_winkler target reference
    (PhoneticMatcher.units doublemetaphone i (NameProcessor.process_name target))
    (PhoneticMatcher.units doublemetaphone j (NameProcessor.process_name reference))
  = PhoneticMatcher.generate_candidates jaro_winkler target' reference'
      (PhoneticMatcher.units doublemetaphone i (NameProcessor.process_name target'))
      (PhoneticMatcher.units doublemetaphone j (NameProcessor.process_name reference')).
Proof.
  intros Ht Hr i j.
  destruct (decide (NameProcessor.normalize_text target = "")) as [Et|Et].
  { by rewrite (units_blank i target), (units_blank i target') by congruence. }
  destruct (decide (NameProcessor.normalize_text reference = "")) as [Er|Er].
  { rewrite (units_blank j reference), (units_blank j reference') by congruence.
    by rewrite !generate_candidates_no_reference. }
  rewrite <- (process_name_same _ _ Ht), <- (process_name_same _ _ Hr).
  rewrite !generate_candidates_bind.
  apply list_bind_ext; [|done]. intros t.
  apply list_bind_ext; [|done]. intros r.
  unfold pair_candidates.
  rewrite (calculate_pair_score_names _ _ target reference target' reference');
    try done.
  - rewrite !normalized_truthy; congruence.
  - rewrite !normalized_truthy; congruence.
Qed.

(** X16. The matcher sees a name only through its normalized text: two
    targets with the same normalized text, and two references with the same
    normalized text, get the same score, the same [N], the same pairings and
    the same list of scores.  Letter case and the amount of white space
    therefore never change a result. *)
Theorem match_normal_form (target reference target' reference' : string) :
  NameProcessor.normalize_text target = NameProcessor.normalize_text target' →
  NameProcessor.normalize_text reference = NameProcessor.normalize_text reference' →
  let r := PhoneticMatcher.match_ doublemetaphone jaro_winkler target reference in
  let r' := PhoneticMatcher.match_ doublemetaphone jaro_winkler target' reference' in
  F1 r = F1 r' ∧ N r = N r' ∧ Matches r = Matches r' ∧ AllScores r = AllScores r'.
Proof.
  intros Ht Hr r r'.
  assert (HN : N r = N r').
  { subst r r'. rewrite !match_N. unfold unit_count.
    by rewrite (process_name_same _ _ Ht). }
  assert (HM : Matches r = Matches r').
  { subst r r'. rewrite !match_Matches.
    assert (E : unit_count target = unit_count target')
      by (unfold unit_count; by rewrite (process_name_same _ _ Ht)).
    rewrite E. f_equal. by apply generate_candidates_same. }
  assert (HA : AllScores r = AllScores r').
  { pose proof (match_AllScores doublemetaphone jaro_winkler target reference) as A.
    pose proof (match_AllScores doublemetaphone jaro_winkler target' reference') as A'.
    cbv zeta in A, A'. subst r r'. by rewrite A, A', HN, HM. }
  split; [|done].
  pose proof (match_F1 doublemetaphone jaro_winkler target reference) as F.
  pose proof (match_F1 doublemetaphone jaro_winkler target' reference') as F'.
  cbv zeta in F, F'. subst r r'. by rewrite F, F', HN, HA.
Qed.
End MatchFacts.

Lemma match_normal_form_witness :
  F1 (PhoneticMatcher.match_ Sample.doublemetaphone Sample.jaro_winkler
        "  JOHN   Doe " "j DOE")
  = F1 (PhoneticMatcher.match_ Sample.doublemetaphone Sample.jaro_winkler
          "john doe" "J  doe").
Proof.
  apply (match_normal_form Sample.doublemetaphone Sample.jaro_winkler
           "  JOHN   Doe " "j DOE" "john doe" "J  doe"); reflexivity.
Defined.

(** ** The label of any score, and the route *)

Section LabelFacts.
Import ScoreNormalizer FloatFacts Spec.
Local Open Scope float_scope.

Lemma eqb_leb (x y : float) : (x =? y) = true → (x <=? y) = true.
Proof.
  rewrite eqb_compare, leb_compare. intros H. by exists Eq.
Qed.

(** A score that is not at most 100 is not at most any lower threshold. *)
Lemma not_leb_100 (score threshold : float) :
  (threshold <=? 100) = true → (score <=? 100) = false →
  (score <=? threshold) = false.
Proof.
  intros Ht H. destruct (score <=? threshold) eqn:E; [|done].
  pose proof (leb_trans _ _ _ E Ht). congruence.
Qed.

Lemma get_label_above (score : float) :
  (score <=? 100) = false → get_label score = "Unknown".
Proof.
  intros H. unfold get_label.
  rewrite (not_leb_100 score 30 eq_refl H), (not_leb_100 score 60 eq_refl H),
    (not_leb_100 score 75 eq_refl H), (not_leb_100 score 88 eq_refl H),
    (not_leb_100 score 94 eq_refl H), !andb_false_r.
  destruct (score <? 100) eqn:Hlt.
  { apply ltb_leb in Hlt. congruence. }
  destruct (score =? 100) eqn:Heq.
  { apply eqb_leb in Heq. congruence. }
  by rewrite andb_false_r.
Qed.

Lemma get_label_within (score : float) :
  (score <=? 100) = true → get_label score ≠ "Unknown".
Proof.
  intros H100.
  assert (Hnum : (score =? score) = true) by (by eapply leb_number_l).
  unfold get_label.
  destruct (score <=? 30) eqn:E30; [done|].
  rewrite (not_leb_ltb score 30 Hnum eq_refl E30). simpl.
  destruct (score <=? 60) eqn:E60; [done|].
  rewrite (not_leb_ltb score 60 Hnum eq_refl E60). simpl.
  destruct (score <=? 75) eqn:E75; [done|].
  rewrite (not_leb_ltb score 75 Hnum eq_refl E75). simpl.
  destruct (score <=? 88) eqn:E88; [done|].
  rewrite (not_leb_ltb score 88 Hnum eq_refl E88). simpl.
  destruct (score <=? 94) eqn:E94; [done|].
  rewrite (not_leb_ltb score 94 Hnum eq_refl E94). simpl.
  destruct (score <? 100) eqn:E100; [done|].
  by rewrite (leb_not_ltb_eqb _ _ H100 E100).
Qed.

(** X17. Outside its intended range the labeler does not fail: it answers
    "Unknown" exactly for the scores that are not at most 100 (a score above
    100, or NaN), and "Names Do Not Match" for every score up to 30,
    negative ones included. *)
Theorem get_label_out_of_range (score : float) :
  (get_label score = "Unknown" ↔ (score <=? 100) = false)
  ∧ ((score <? 0) = true → get_label score = "Names Do Not Match").
Proof.
  split.
  - split.
    + intros H. destruct (score <=? 100) eqn:E; [|done].
      by apply get_label_within in E.
    + apply get_label_above.
  - intros H. unfold get_label.
    by rewrite (leb_trans score 0 30 (ltb_leb _ _ H) eq_refl).
Qed.
End LabelFacts.

Section Route.
Import Spec.
Variable doublemetaphone : string → string * string.
Variable jaro_winkler : string → string → float.

(** X18. The route of the API answers a first name in whose normalized
    text the tokenizer finds nothing with the score 0.0 and the label
    "Names Do Not Match", whatever the second name is; and in every answer
    the label is "Unknown" exactly when the score is not at most 100. *)
Theorem calculate_score_facts (name1 name2 : string) :
  let response := Api.calculate_score doublemetaphone jaro_winkler name1 name2 in
  (NameProcessor.extract_alpha_tokens (NameProcessor.normalize_text name1) = [] →
   response = {| similarity_score := 0;
                 similarity_label := "Names Do Not Match" |})
  ∧ (similarity_label response = "Unknown"
     ↔ (similarity_score response <=? 100)%float = false).
Proof.
  intros response. subst response. unfold Api.calculate_score. cbv zeta.
  split.
  - intros H. by rewrite (match_no_target doublemetaphone jaro_winkler name1 name2 H).
  - cbn [similarity_label similarity_score]. split.
    + intros H. destruct (_ <=? 100)%float eqn:E; [|done].
      by apply get_label_within in E.
    + apply get_label_above.
Qed.
End Route.

(** ** The number of units *)

Section UnitCount.
Import NameProcessor Spec.

Lemma tokens_nonempty (name : string) :
  Forall (λ t, t ≠ "") (extract_alpha_tokens (normalize_text name)).
Proof.
  eapply Forall_impl; [apply tokens_lower_case|]. by intros t [? _].
Qed.

(** A token is an initial or a name segment, never both; only the empty
    string is neither. *)
Lemma initial_not_segment (token : string) :
  is_initial token = true → is_name_segment token = false.
Proof.
  intros H%Nat.eqb_eq. unfold is_name_segment. rewrite H. simpl.
  rewrite orb_false_r. destruct (is_alias token) eqn:Ha; [|done].
  apply alias_length in Ha. lia.
Qed.

Lemma neither_empty (token : string) :
  is_initial token = false → is_name_segment token = false → token = "".
Proof.
  unfold is_initial, is_name_segment. intros H1 [_ H2]%orb_false_elim.
  destruct token as [|c [|d s]]; done.
Qed.

Lemma extract_name_segments_nil (tokens : list string) :
  extract_name_segments tokens = []
  ↔ Forall (λ t, is_name_segment t = false) tokens.
Proof.
  rewrite extract_name_segments_forms, first_occurrences_nil, fmap_nil_iff.
  split.
  - intros E. apply Forall_forall. intros t Ht.
    destruct (is_name_segment t) eqn:Hs; [|done].
    assert (H : t ∈ filter (λ t, is_name_segment t = true) tokens)
      by by apply list_elem_of_filter.
    rewrite E in H. by apply elem_of_nil in H.
  - induction 1 as [|t l Ht Hl IH]; [done|].
    by rewrite filter_cons_False by congruence.
Qed.

Lemma extract_initials_nil (tokens : list string) :
  (extract_initials tokens).1 = []
  ↔ Forall (λ t, is_initial t = false) tokens.
Proof.
  rewrite extract_initials_forms. cbn [fst].
  rewrite first_occurrences_nil, fmap_nil_iff. apply initial_runs_nil.
Qed.

Lemma length_first_occurrences (items : list string) :
  (length (first_occurrences items) ≤ length items)%nat.
Proof. apply sublist_length, first_occurrences_sublist. Qed.

Lemma length_initial_runs (tokens : list string) :
  (length (initial_runs tokens)
   ≤ length (filter (λ t, is_initial t = true) tokens))%nat.
Proof.
  induction tokens as [|token rest IH]; [done|].
  cbn [initial_runs]. rewrite filter_cons.
  destruct (is_initial token) eqn:Ht; case_decide; try done.
  destruct (head rest) as [next|], (initial_runs rest) as [|run runs];
    try destruct (is_initial next); simpl in *; lia.
Qed.

Lemma length_filter_disjoint (tokens : list string) :
  (length (filter (λ t, is_name_segment t = true) tokens)
   + length (filter (λ t, is_initial t = true) tokens)
   ≤ length tokens)%nat.
Proof.
  induction tokens as [|t l IH]; [done|].
  rewrite !filter_cons.
  destruct (is_initial t) eqn:Hi.
  - rewrite (initial_not_segment t Hi). repeat case_decide; try done.
    simpl. lia.
  - repeat case_decide; try done; simpl; lia.
Qed.

(** X19. A name has no unit ([N = 0] when it is the target) exactly when
    the tokenizer finds no token in its normalized text, and it never has
    more units than tokens.  For an ASCII name, having no unit is the same
    as containing no character of [[a-zA-Z]]. *)
Theorem unit_count_facts (name : string) :
  (unit_count name = 0 ↔ extract_alpha_tokens (normalize_text name) = [])
  ∧ (unit_count name ≤ length (extract_alpha_tokens (normalize_text name)))%nat
  ∧ (str_all is_ascii name = true →
     (unit_count name = 0 ↔ has_alpha name = false)).
Proof.
  assert (Hzero : unit_count name = 0
                  ↔ extract_alpha_tokens (normalize_text name) = []).
  { unfold unit_count, process_name. cbv zeta.
    set (tokens := extract_alpha_tokens (normalize_text name)).
    destruct (extract_initials tokens) as [ni1 ni2] eqn:Eni.
    cbn [NS NI fst]. split.
    - intros H.
      assert (Hns : extract_name_segments tokens = [])
        by (apply length_zero_iff_nil; lia).
      assert (Hnil : ni1 = []) by (apply length_zero_iff_nil; lia).
      apply extract_name_segments_nil in Hns.
      assert (Hin : Forall (λ t, is_initial t = false) tokens).
      { apply extract_initials_nil. by rewrite Eni. }
      pose proof (tokens_nonempty name) as Hne. fold tokens in Hne.
      destruct tokens as [|t l]; [done|].
      apply Forall_cons in Hns as [Hs _], Hin as [Hi _], Hne as [Hne _].
      by pose proof (neither_empty t Hi Hs).
    - intros E. rewrite E in Eni. vm_compute in Eni.
      injection Eni as <- <-. by rewrite E. }
  split; [exact Hzero|]. split.
  - unfold unit_count, process_name. cbv zeta.
    set (tokens := extract_alpha_tokens (normalize_text name)).
    pose proof (extract_initials_forms tokens) as Hni.
    destruct (extract_initials tokens) as [ni1 ni2] eqn:Eni.
    cbn [NS NI fst].
    assert (Hni1 : ni1 = first_occurrences (joined <$> initial_runs tokens))
      by congruence.
    rewrite extract_name_segments_forms, Hni1.
    pose proof (length_first_occurrences
                  (name_segment_form
                     <$> filter (λ t, is_name_segment t = true) tokens)).
    pose proof (length_first_occurrences (joined <$> initial_runs tokens)).
    pose proof (length_initial_runs tokens).
    pose proof (length_filter_disjoint tokens).
    rewrite !length_fmap in *. lia.
  - intros Hascii.
    by rewrite Hzero, tokens_nil, has_alpha_lower_ascii.
Qed.
End UnitCount.
